(** * magmadnn: the [Operation] base class of the computation graph

    A shallow embedding of [include/compute/operation.h].  Objects live in a
    store addressed by their pointer value; the two pure-virtual methods
    [_eval] and [_grad] are parameters of the development, and every method
    of the base class is a function on the store. *)

From stdpp Require Import gmap strings list fin_maps.
From Stdlib Require Import ZArith Lia.

(** ** Pointers, results, tensors *)

(** A pointer is its integer value ([uintptr_t], an [N]); [NULL] is 0. *)
Definition NULL : N := 0%N.

(** Modelled from the spec: the three error kinds of its section 7.  The
    header declares no exception type and contains no [throw]; an exception
    can only come out of one of the two abstract rules. *)
Inductive error := ShapeMismatch | GradientTargetNotFound | UnsupportedMemoryLocation.

(** Outcome of a call: a normal return, an exception that reaches the caller,
    undefined behaviour (a dangling or null dereference, [*end()], a failed
    [assert]), or a recursion deeper than the fuel the model was given. *)
Inductive result (A : Type) : Type :=
  | Ok (a : A)
  | Raise (e : error)
  | Undefined
  | OutOfFuel.
Arguments Ok {A} a.
Arguments Raise {A} e.
Arguments Undefined {A}.
Arguments OutOfFuel {A}.

#[global] Instance result_ret : MRet result := fun A a => Ok a.
#[global] Instance result_bind : MBind result := fun A B f r =>
  match r with
  | Ok a => f a
  | Raise e => Raise e
  | Undefined => Undefined
  | OutOfFuel => OutOfFuel
  end.

Definition of_option {A} (o : option A) : result A :=
  match o with Some a => Ok a | None => Undefined end.

(** [memory_t]: the header only stores and returns it. *)
Inductive memory_t := HOST | DEVICE | MANAGED | CUDA_MANAGED.

(** Modelled from the spec: [tensor/tensor.h] is not part of the sources at
    hand.  The spec gives a tensor three context fields, the stream and the
    two library handles; the header calls [Tensor::set_custream] and
    [Tensor::set_cublas_handle] on it, modelled as plain field writes. *)
Record Tensor := mkTensor {
  t_custream : N;
  t_cublas_handle : N;
  t_cudnn_handle : N
}.

Definition Tensor_set_custream (s : N) (t : Tensor) : Tensor :=
  {| t_custream := s; t_cublas_handle := t_cublas_handle t;
     t_cudnn_handle := t_cudnn_handle t |}.

Definition Tensor_set_cublas_handle (c : N) (t : Tensor) : Tensor :=
  {| t_custream := t_custream t; t_cublas_handle := c;
     t_cudnn_handle := t_cudnn_handle t |}.

(** Modelled from the spec: [CudaExecContext] is declared outside the
    sources at hand; it bundles a stream and the two library handles. *)
Record CudaExecContext := mkCtx {
  stream : N;
  cublas_handle : N;
  cudnn_handle : N
}.

(** ** The data members of [Operation<T>] *)

Record Operation := mkOperation {
  inputs : list N;
  consumers : list N;
  output_shape : list Z;          (* std::vector<unsigned int> *)
  mem_type : memory_t;
  _grad_cache : gmap N N;         (* std::map<uintptr_t, Tensor<T> *> *)
  name : string;
  output_tensor : N;
  needs_grad : bool;
  has_been_computed : bool;
  has_grad_been_computed : bool;
  custream_ : N;
  cudnn_handle_ : N;
  cublas_handle_ : N;
  async_ : bool
}.

Definition with_consumers (v : list N) (o : Operation) : Operation :=
  mkOperation (inputs o) v (output_shape o) (mem_type o) (_grad_cache o)
    (name o) (output_tensor o) (needs_grad o) (has_been_computed o)
    (has_grad_been_computed o) (custream_ o) (cudnn_handle_ o)
    (cublas_handle_ o) (async_ o).

Definition with_grad_cache (v : gmap N N) (o : Operation) : Operation :=
  mkOperation (inputs o) (consumers o) (output_shape o) (mem_type o) v
    (name o) (output_tensor o) (needs_grad o) (has_been_computed o)
    (has_grad_been_computed o) (custream_ o) (cudnn_handle_ o)
    (cublas_handle_ o) (async_ o).

Definition with_has_been_computed (v : bool) (o : Operation) : Operation :=
  mkOperation (inputs o) (consumers o) (output_shape o) (mem_type o)
    (_grad_cache o) (name o) (output_tensor o) (needs_grad o) v
    (has_grad_been_computed o) (custream_ o) (cudnn_handle_ o)
    (cublas_handle_ o) (async_ o).

Definition with_has_grad_been_computed (v : bool) (o : Operation) : Operation :=
  mkOperation (inputs o) (consumers o) (output_shape o) (mem_type o)
    (_grad_cache o) (name o) (output_tensor o) (needs_grad o)
    (has_been_computed o) v (custream_ o) (cudnn_handle_ o)
    (cublas_handle_ o) (async_ o).

Definition with_custream (v : N) (o : Operation) : Operation :=
  mkOperation (inputs o) (consumers o) (output_shape o) (mem_type o)
    (_grad_cache o) (name o) (output_tensor o) (needs_grad o)
    (has_been_computed o) (has_grad_been_computed o) v (cudnn_handle_ o)
    (cublas_handle_ o) (async_ o).

Definition with_cudnn_handle (v : N) (o : Operation) : Operation :=
  mkOperation (inputs o) (consumers o) (output_shape o) (mem_type o)
    (_grad_cache o) (name o) (output_tensor o) (needs_grad o)
    (has_been_computed o) (has_grad_been_computed o) (custream_ o) v
    (cublas_handle_ o) (async_ o).

Definition with_cublas_handle (v : N) (o : Operation) : Operation :=
  mkOperation (inputs o) (consumers o) (output_shape o) (mem_type o)
    (_grad_cache o) (name o) (output_tensor o) (needs_grad o)
    (has_been_computed o) (has_grad_been_computed o) (custream_ o)
    (cudnn_handle_ o) v (async_ o).

Definition with_async (v : bool) (o : Operation) : Operation :=
  mkOperation (inputs o) (consumers o) (output_shape o) (mem_type o)
    (_grad_cache o) (name o) (output_tensor o) (needs_grad o)
    (has_been_computed o) (has_grad_been_computed o) (custream_ o)
    (cudnn_handle_ o) (cublas_handle_ o) v.

(** ** The store *)

Record Heap := mkHeap {
  ops : gmap N Operation;
  tensors : gmap N Tensor
}.

Definition load (p : N) (h : Heap) : result Operation := of_option (ops h !! p).

Definition store (p : N) (o : Operation) (h : Heap) : Heap :=
  {| ops := <[p := o]> (ops h); tensors := tensors h |}.

Definition load_tensor (p : N) (h : Heap) : result Tensor :=
  of_option (tensors h !! p).

Definition store_tensor (p : N) (t : Tensor) (h : Heap) : Heap :=
  {| ops := ops h; tensors := <[p := t]> (tensors h) |}.

(** [std::map::operator[]]: a missing key is inserted with a
    value-initialised (null) pointer, and the mapped value is returned. *)
Definition map_subscript (m : gmap N N) (k : N) : N * gmap N N :=
  match m !! k with
  | Some v => (v, m)
  | None => (NULL, <[k := NULL]> m)
  end.

(** [std::map::insert]: an existing key keeps its value. *)
Definition map_insert_new (k v : N) (m : gmap N N) : gmap N N :=
  match m !! k with
  | Some _ => m
  | None => <[k := v]> m
  end.

(** [unsigned int] is 32 bits wide on the platforms the library builds for. *)
Definition UINT_MOD : Z := 2 ^ 32.

(** A loop over a vector of node pointers whose body is a call on the store. *)
Fixpoint for_each (f : N -> Heap -> result Heap) (l : list N) (h : Heap)
  : result Heap :=
  match l with
  | [] => Ok h
  | i :: l' => h' ← f i h; for_each f l' h'
  end.

(** ** Accessors *)

Definition get_output_shape (this : N) (h : Heap) : result (list Z) :=
  o ← load this h; Ok (output_shape o).

Definition get_output_shape_at (this : N) (idx : nat) (h : Heap) : result Z :=
  o ← load this h; of_option (output_shape o !! idx).

Definition get_output_size (this : N) (h : Heap) : result Z :=
  o ← load this h;
  Ok (fold_left (fun size d => (size * d) mod UINT_MOD)%Z (output_shape o) 1%Z).

Definition get_memory_type (this : N) (h : Heap) : result memory_t :=
  o ← load this h; Ok (mem_type o).

Definition get_consumers (this : N) (h : Heap) : result (list N) :=
  o ← load this h; Ok (consumers o).

Definition get_inputs (this : N) (h : Heap) : result (list N) :=
  o ← load this h; Ok (inputs o).

Definition get_output_tensor (this : N) (h : Heap) : result N :=
  o ← load this h; Ok (output_tensor o).

Definition get_grad_tensor (this : N) (wrt : N) (h : Heap) : result N :=
  o ← load this h; of_option (_grad_cache o !! wrt).

Definition get_name (this : N) (h : Heap) : result string :=
  o ← load this h; Ok (name o).

Definition get_custream (this : N) (h : Heap) : result N :=
  o ← load this h; Ok (custream_ o).

Definition get_cudnn_handle (this : N) (h : Heap) : result N :=
  o ← load this h; Ok (cudnn_handle_ o).

Definition get_cublas_handle (this : N) (h : Heap) : result N :=
  o ← load this h; Ok (cublas_handle_ o).

Definition get_async (this : N) (h : Heap) : result bool :=
  o ← load this h; Ok (async_ o).

(** ** Mutators that do not dispatch *)

Definition reset (this : N) (h : Heap) : result Heap :=
  o ← load this h;
  Ok (store this
        (with_has_grad_been_computed false (with_has_been_computed false o)) h).

Definition add_consumer (this : N) (consumer : N) (h : Heap) : result Heap :=
  o ← load this h;
  Ok (store this (with_consumers (consumers o ++ [consumer]) o) h).

(** ** Propagation of the CUDA execution context *)

Fixpoint set_custream (fuel : nat) (this : N) (custream : N) (h : Heap)
  : result Heap :=
  match fuel with
  | O => OutOfFuel
  | S n =>
      o ← load this h;
      h1 ← for_each (fun input_op => set_custream n input_op custream) (inputs o) h;
      o1 ← load this h1;
      h2 ← (if (output_tensor o1 =? NULL)%N then Ok h1
            else t ← load_tensor (output_tensor o1) h1;
                 Ok (store_tensor (output_tensor o1) (Tensor_set_custream custream t) h1));
      o2 ← load this h2;
      Ok (store this (with_custream custream o2) h2)
  end.

Fixpoint set_cudnn_handle (fuel : nat) (this : N) (cudnn_handle : N) (h : Heap)
  : result Heap :=
  match fuel with
  | O => OutOfFuel
  | S n =>
      o ← load this h;
      h1 ← for_each (fun input_op => set_cudnn_handle n input_op cudnn_handle)
             (inputs o) h;
      o1 ← load this h1;
      Ok (store this (with_cudnn_handle cudnn_handle o1) h1)
  end.

Fixpoint set_cublas_handle (fuel : nat) (this : N) (cublas_handle : N) (h : Heap)
  : result Heap :=
  match fuel with
  | O => OutOfFuel
  | S n =>
      o ← load this h;
      h1 ← for_each (fun input_op => set_cublas_handle n input_op cublas_handle)
             (inputs o) h;
      o1 ← load this h1;
      h2 ← (if (output_tensor o1 =? NULL)%N then Ok h1
            else t ← load_tensor (output_tensor o1) h1;
                 Ok (store_tensor (output_tensor o1)
                       (Tensor_set_cublas_handle cublas_handle t) h1));
      o2 ← load this h2;
      Ok (store this (with_cublas_handle cublas_handle o2) h2)
  end.

Fixpoint set_async (fuel : nat) (this : N) (async : bool) (h : Heap)
  : result Heap :=
  match fuel with
  | O => OutOfFuel
  | S n =>
      o ← load this h;
      h1 ← for_each (fun input_op => set_async n input_op async) (inputs o) h;
      o1 ← load this h1;
      Ok (store this (with_async async o1) h1)
  end.

Definition cuda_exec_context (fuel : nat) (this : N) (cuda_ctx : CudaExecContext)
  (h : Heap) : result Heap :=
  h1 ← set_custream fuel this (stream cuda_ctx) h;
  h2 ← set_cublas_handle fuel this (cublas_handle cuda_ctx) h1;
  set_cudnn_handle fuel this (cudnn_handle cuda_ctx) h2.

(** ** Methods that depend on the build and on the abstract rules *)

Section Methods.

(** [MAGMADNN_HAVE_CUDA], and the two handles of the global
    [MAGMADNN_SETTINGS] object read by the constructors. *)
Variable MAGMADNN_HAVE_CUDA : bool.
Variable SETTINGS_cudnn_handle : N.
Variable SETTINGS_cublas_handle : N.

(** The pure-virtual rules, dispatched on [this]. *)
Variable _eval : N -> bool -> Heap -> result (N * Heap).
Variable _grad : N -> N -> N -> N -> Heap -> result (N * Heap).

Definition default_context (fuel : nat) (this : N) (h : Heap) : result Heap :=
  if MAGMADNN_HAVE_CUDA then
    h1 ← set_custream fuel this NULL h;
    h2 ← set_cudnn_handle fuel this SETTINGS_cudnn_handle h1;
    h3 ← set_cublas_handle fuel this SETTINGS_cublas_handle h2;
    set_async fuel this false h3
  else Ok h.

(** [Operation()].  [raw] is the indeterminate content of the storage the
    object is built in: members without an initialiser keep it. *)
Definition Operation_default (fuel : nat) (this : N) (raw : Operation)
  (h : Heap) : result Heap :=
  default_context fuel this
    (store this
       {| inputs := []; consumers := []; output_shape := [];
          mem_type := mem_type raw; _grad_cache := ∅;
          name := "DefaultOpName"; output_tensor := NULL;
          needs_grad := needs_grad raw; has_been_computed := false;
          has_grad_been_computed := has_grad_been_computed raw;
          custream_ := custream_ raw; cudnn_handle_ := cudnn_handle_ raw;
          cublas_handle_ := cublas_handle_ raw; async_ := async_ raw |} h).

(** The loop of [Operation(inputs, needs_grad)]. *)
Fixpoint register_inputs (this : N) (needs_grad : bool) (vit : list N)
  (h : Heap) : result Heap :=
  match vit with
  | [] => Ok h
  | i :: rest =>
      h1 ← (if needs_grad then add_consumer i this h else Ok h);
      o ← load this h1;
      register_inputs this needs_grad rest
        (store this (with_grad_cache (map_insert_new i NULL (_grad_cache o)) o) h1)
  end.

(** [Operation(std::vector<Operation<T> *> inputs, bool needs_grad)]. *)
Definition Operation_ctor (fuel : nat) (this : N) (raw : Operation)
  (inputs : list N) (needs_grad : bool) (h : Heap) : result Heap :=
  h1 ← register_inputs this needs_grad inputs
         (store this
            {| inputs := inputs; consumers := []; output_shape := [];
               mem_type := mem_type raw; _grad_cache := ∅;
               name := "DefaultOpName"; output_tensor := NULL;
               needs_grad := needs_grad;
               has_been_computed := has_been_computed raw;
               has_grad_been_computed := has_grad_been_computed raw;
               custream_ := custream_ raw; cudnn_handle_ := cudnn_handle_ raw;
               cublas_handle_ := cublas_handle_ raw; async_ := async_ raw |} h);
  default_context fuel this h1.

Definition eval (this : N) (recompute : bool) (h : Heap) : result (N * Heap) :=
  o ← load this h;
  if negb recompute && has_been_computed o && negb (output_tensor o =? NULL)%N
  then Ok (output_tensor o, h)
  else _eval this recompute (store this (with_has_been_computed true o) h).

Definition grad (this consumer var grad_ : N) (recompute : bool) (h : Heap)
  : result (N * Heap) :=
  if negb recompute then
    o ← load this h;
    let '(ret, cache) := map_subscript (_grad_cache o) var in
    let h1 := store this (with_grad_cache cache o) h in
    if negb (ret =? NULL)%N then Ok (ret, h1)
    else _grad this consumer var grad_ h1
  else _grad this consumer var grad_ h.

End Methods.

(** ** Generic form of the four recursive setters *)

(** Cell [y] is cell [x], possibly rewritten by [f]. *)
Definition upd_rel {A} (f : A -> A) (x y : option A) : Prop :=
  match x, y with
  | Some a, Some b => b = a \/ b = f a
  | None, None => True
  | _, _ => False
  end.

Section Broadcast.

Variable set_op : Operation -> Operation.
Variable set_t : option (Tensor -> Tensor).

Fixpoint broadcast (fuel : nat) (this : N) (h : Heap) : result Heap :=
  match fuel with
  | O => OutOfFuel
  | S n =>
      o ← load this h;
      h1 ← for_each (broadcast n) (inputs o) h;
      o1 ← load this h1;
      h2 ← match set_t with
           | Some f =>
               if (output_tensor o1 =? NULL)%N then Ok h1
               else t ← load_tensor (output_tensor o1) h1;
                    Ok (store_tensor (output_tensor o1) (f t) h1)
           | None => Ok h1
           end;
      o2 ← load this h2;
      Ok (store this (set_op o2) h2)
  end.

Definition tfun : Tensor -> Tensor :=
  match set_t with Some f => f | None => fun t => t end.

(** Every cell of [h'] is the cell of [h], possibly rewritten by the
    setter; no cell appears or disappears. *)
Definition bc_rel (h h' : Heap) : Prop :=
  (forall q, upd_rel set_op (ops h !! q) (ops h' !! q))
  /\ (forall a, upd_rel tfun (tensors h !! a) (tensors h' !! a)).

(** The setter has reached a node: the node holds the value, and so does
    its cached output tensor when the setter writes tensors. *)
Definition settled (h : Heap) (q : N) : Prop :=
  exists o, ops h !! q = Some o /\ set_op o = o
    /\ (is_Some set_t -> output_tensor o <> NULL ->
        exists t, tensors h !! output_tensor o = Some t /\ tfun t = t).

End Broadcast.

(** ** Well-formed graphs and relations between stores *)

(** The part of the graph below [p] has depth less than [n], and every
    pointer in it (input nodes, cached output tensors) is live. *)
Fixpoint wf_at (n : nat) (h : Heap) (p : N) : bool :=
  match n with
  | O => false
  | S n' =>
      match ops h !! p with
      | None => false
      | Some o =>
          ((output_tensor o =? NULL)%N
           || bool_decide (is_Some (tensors h !! output_tensor o)))
          && forallb (wf_at n' h) (inputs o)
      end
  end.

(** [q] is reachable from [p] through the input edges. *)
Inductive reach (h : Heap) : N -> N -> Prop :=
  | reach_refl p : reach h p p
  | reach_step p o i q :
      ops h !! p = Some o -> i ∈ inputs o -> reach h i q -> reach h p q.

(** Every node of [h] is still in [h'] with the same inputs and the same
    cached output tensor, and every live tensor is still live. *)
Definition graph_le (h h' : Heap) : Prop :=
  (forall q o, ops h !! q = Some o ->
     exists o', ops h' !! q = Some o' /\ inputs o' = inputs o
                /\ output_tensor o' = output_tensor o)
  /\ (forall a, is_Some (tensors h !! a) -> is_Some (tensors h' !! a)).

(** Two cells are both empty, or both full and related by [R]. *)
Definition opt_rel {A} (R : A -> A -> Prop) (x y : option A) : Prop :=
  match x, y with
  | Some a, Some b => R a b
  | None, None => True
  | _, _ => False
  end.

(** [o'] is [o] up to the four members of the private CUDA block. *)
Definition same_but_context (o o' : Operation) : Prop :=
  inputs o' = inputs o /\ consumers o' = consumers o
  /\ output_shape o' = output_shape o /\ mem_type o' = mem_type o
  /\ _grad_cache o' = _grad_cache o /\ name o' = name o
  /\ output_tensor o' = output_tensor o /\ needs_grad o' = needs_grad o
  /\ has_been_computed o' = has_been_computed o
  /\ has_grad_been_computed o' = has_grad_been_computed o.

(** No setter of the header writes a tensor's cuDNN handle. *)
Definition same_but_context_t (t t' : Tensor) : Prop :=
  t_cudnn_handle t' = t_cudnn_handle t.

(** [h'] is [h] up to context members: the frame of every setter. *)
Definition ctx_frame (h h' : Heap) : Prop :=
  (forall q, opt_rel same_but_context (ops h !! q) (ops h' !! q))
  /\ (forall a, opt_rel same_but_context_t (tensors h !! a) (tensors h' !! a)).

(** Node [q] holds [v] in member [fo]. *)
Definition node_has (fo : Operation -> N) (v : N) (h : Heap) (q : N) : Prop :=
  exists o, ops h !! q = Some o /\ fo o = v.

(** The cached output tensor of [q], if any, holds [v] in member [ft]. *)
Definition tensor_has (ft : Tensor -> N) (v : N) (h : Heap) (q : N) : Prop :=
  forall o, ops h !! q = Some o -> output_tensor o <> NULL ->
  exists t, tensors h !! output_tensor o = Some t /\ ft t = v.

(** ** Calls other than [eval] *)

(** A call a client can make on a node of the store through the public
    interface of the base class, [eval] left out.  The accessors write
    nothing and are left out too. *)
Inductive call :=
  | call_reset (p : N)
  | call_add_consumer (p consumer : N)
  | call_set_custream (fuel : nat) (p custream : N)
  | call_set_cudnn_handle (fuel : nat) (p handle : N)
  | call_set_cublas_handle (fuel : nat) (p handle : N)
  | call_set_async (fuel : nat) (p : N) (async : bool)
  | call_cuda_exec_context (fuel : nat) (p : N) (ctx : CudaExecContext)
  | call_grad (p consumer var grad_ : N) (recompute : bool).

Definition run_call (_grad : N -> N -> N -> N -> Heap -> result (N * Heap))
  (c : call) (h : Heap) : result Heap :=
  match c with
  | call_reset p => reset p h
  | call_add_consumer p consumer => add_consumer p consumer h
  | call_set_custream fuel p s => set_custream fuel p s h
  | call_set_cudnn_handle fuel p c => set_cudnn_handle fuel p c h
  | call_set_cublas_handle fuel p c => set_cublas_handle fuel p c h
  | call_set_async fuel p a => set_async fuel p a h
  | call_cuda_exec_context fuel p ctx => cuda_exec_context fuel p ctx h
  | call_grad p consumer var g recompute =>
      r ← grad _grad p consumer var g recompute h; Ok (snd r)
  end.

Fixpoint run_calls (_grad : N -> N -> N -> N -> Heap -> result (N * Heap))
  (cs : list call) (h : Heap) : result Heap :=
  match cs with
  | [] => Ok h
  | c :: cs' => h' ← run_call _grad c h; run_calls _grad cs' h'
  end.

(** The "has been computed" flag of the node at [p], false when no node
    lives there. *)
Definition computed (h : Heap) (p : N) : bool :=
  match ops h !! p with
  | Some o => has_been_computed o
  | None => false
  end.

(** ** Test objects *)

(** A variable node of shape 2x2 with cached output tensor [out]. *)
Definition leaf (ng : bool) (out : N) : Operation :=
  mkOperation [] [] [2%Z; 2%Z] HOST ∅ "x" out ng false false 0%N 0%N 0%N false.

(** An evaluated node of shape 2x2 over [ins], cached output tensor [out]. *)
Definition inner (ins : list N) (out : N) : Operation :=
  mkOperation ins [] [2%Z; 2%Z] HOST ∅ "op" out true true false 0%N 0%N 0%N false.

(** What uninitialised storage may hold before a constructor runs. *)
Definition raw_storage : Operation :=
  mkOperation [9%N] [9%N] [7%Z] DEVICE ∅ "junk" 9%N true true true 9%N 9%N 9%N true.

(** [3 = op(1, 2)], with cached output tensors on 3 and on 1. *)
Definition test_heap : Heap :=
  {| ops := <[1%N := leaf true 51%N]> (<[2%N := leaf false NULL]>
              (<[3%N := inner [1%N; 2%N] 50%N]> ∅));
     tensors := <[50%N := mkTensor 0 0 0]> (<[51%N := mkTensor 0 0 0]> ∅) |}.

(** A node whose declared shape has 2^32 elements. *)
Definition big_heap : Heap :=
  {| ops := <[1%N := mkOperation [] [] [65536%Z; 65536%Z] HOST ∅ "big" NULL
                        false false false 0%N 0%N 0%N false]> ∅;
     tensors := ∅ |}.

(** A local gradient rule that hands the upstream gradient through, as the
    rule of an addition does. *)
Definition pass_through_grad : N -> N -> N -> N -> Heap -> result (N * Heap) :=
  fun _ _ _ g h => Ok (g, h).

(** A forward rule that cannot be invoked unnoticed. *)
Definition failing_eval : N -> bool -> Heap -> result (N * Heap) :=
  fun _ _ _ => Undefined.

(** The product of the entries of a shape, in the integers. *)
Definition shape_product (l : list Z) : Z := fold_right Z.mul 1%Z l.

(** ** Destruction *)

(** Releasing the storage of a node. *)
Definition free_op (p : N) (h : Heap) : Heap :=
  {| ops := delete p (ops h); tensors := tensors h |}.

(** [delete p] on a node pointer.  Nothing happens for a null pointer;
    otherwise the body of [~Operation()] runs, which deletes every input in
    turn and leaves the cached output tensor alone (the code that freed it
    is commented out), and then the storage of [p] is released.  Releasing
    storage that is already gone is undefined. *)
Fixpoint delete_Operation (fuel : nat) (p : N) (h : Heap) : result Heap :=
  if (p =? NULL)%N then Ok h
  else match fuel with
       | O => OutOfFuel
       | S n =>
           o ← load p h;
           h1 ← for_each (delete_Operation n) (inputs o) h;
           _ ← load p h1;
           Ok (free_op p h1)
       end.

(** [~Operation()], the destructor body alone.  The loop index is an
    [unsigned int]; the input vector is taken to have fewer than 2^32
    entries. *)
Definition Operation_dtor (fuel : nat) (this : N) (h : Heap) : result Heap :=
  o ← load this h; for_each (delete_Operation fuel) (inputs o) h.

(** The node sets below the pointers of [l], when they are pairwise
    disjoint. *)
Fixpoint collect (f : N -> option (gset N)) (l : list N) : option (gset N) :=
  match l with
  | [] => Some ∅
  | i :: l' =>
      match f i, collect f l' with
      | Some Si, Some S' => if bool_decide (Si ## S') then Some (Si ∪ S') else None
      | _, _ => None
      end
  end.

(** The set of nodes below [p] when the input edges below [p] form a tree
    of live nodes of depth at most [n]: no node is reached twice.  Null
    inputs count for nothing. *)
Fixpoint subtree (n : nat) (h : Heap) (p : N) : option (gset N) :=
  if (p =? NULL)%N then Some ∅
  else match n with
       | O => None
       | S n' =>
           match ops h !! p with
           | None => None
           | Some o =>
               match collect (subtree n' h) (inputs o) with
               | Some S' => if bool_decide (p ∈ S') then None else Some ({[p]} ∪ S')
               | None => None
               end
           end
       end.

(** What a successful deletion of the set [D] leaves. *)
Definition deleted (D : gset N) (h h' : Heap) : Prop :=
  tensors h' = tensors h
  /\ forall q, ops h' !! q = if decide (q ∈ D) then None else ops h !! q.

(** [p] lies on a cycle of input edges. *)
Definition on_cycle (h : Heap) (p : N) : Prop :=
  exists o i, ops h !! p = Some o /\ i ∈ inputs o /\ reach h i p.

(** Node 1 is its own input's input: 1 takes 2, and 2 takes 1. *)
Definition cyclic_heap : Heap :=
  {| ops := <[1%N := inner [2%N] NULL]> (<[2%N := inner [1%N] NULL]> ∅);
     tensors := ∅ |}.

(** [test_heap] after the context (7, 8, 9) has been applied to node 3 and
    asynchronous dispatch has been switched on. *)
Definition streamed_heap : Heap :=
  let ctx o := with_async true (with_cudnn_handle 9 (with_cublas_handle 8 (with_custream 7 o))) in
  {| ops := <[1%N := ctx (leaf true 51%N)]> (<[2%N := ctx (leaf false NULL)]>
              (<[3%N := ctx (inner [1%N; 2%N] 50%N)]> ∅));
     tensors := <[50%N := mkTensor 7 8 0]> (<[51%N := mkTensor 7 8 0]> ∅) |}.

(** [a] is not the cached output tensor of any node below one of [l]. *)
Definition foreign_tensor (h : Heap) (l : list N) (a : N) : Prop :=
  forall i q o, i ∈ l -> reach h i q -> ops h !! q = Some o -> output_tensor o <> a.

(** ** Any call of the public interface *)

Inductive method_call :=
  | base_call (c : call)
  | call_eval (p : N) (recompute : bool).

Definition run_method (_eval : N -> bool -> Heap -> result (N * Heap))
  (_grad : N -> N -> N -> N -> Heap -> result (N * Heap))
  (m : method_call) (h : Heap) : result Heap :=
  match m with
  | base_call c => run_call _grad c h
  | call_eval p recompute => r ← eval _eval p recompute h; Ok (snd r)
  end.

Fixpoint run_methods (_eval : N -> bool -> Heap -> result (N * Heap))
  (_grad : N -> N -> N -> N -> Heap -> result (N * Heap))
  (ms : list method_call) (h : Heap) : result Heap :=
  match ms with
  | [] => Ok h
  | m :: ms' => h' ← run_method _eval _grad m h; run_methods _eval _grad ms' h'
  end.

(** The "gradient has been computed" flag of the node at [p], false when
    no node lives there. *)
Definition grad_computed (h : Heap) (p : N) : bool :=
  match ops h !! p with
  | Some o => has_grad_been_computed o
  | None => false
  end.

(** [z = add(mul(x, y), x)]: 5 is [add] over 4 and 1, 4 is [mul] over 1
    and 2; node 1 is an input of both. *)
Definition shared_heap : Heap :=
  {| ops := <[1%N := leaf true NULL]> (<[2%N := leaf true NULL]>
              (<[4%N := inner [1%N; 2%N] NULL]> (<[5%N := inner [4%N; 1%N] NULL]> ∅)));
     tensors := ∅ |}.

(** A forward rule that hands back tensor 50 and writes nothing. *)
Definition const_eval : N -> bool -> Heap -> result (N * Heap) :=
  fun _ _ h => Ok (50%N, h).

(** * Proofs *)

(** ** Basic facts: the result monad and the store *)

Lemma bind_Ok {A B} (m : result A) (k : A -> result B) (b : B) :
  m ≫= k = Ok b -> exists a, m = Ok a /\ k a = Ok b.
Proof. destruct m as [a| | |]; simpl; intros H; try discriminate. eauto. Qed.

Lemma of_option_Ok {A} (o : option A) (a : A) : of_option o = Ok a -> o = Some a.
Proof. destruct o; simpl; congruence. Qed.

Lemma load_Ok p h o : load p h = Ok o -> ops h !! p = Some o.
Proof. apply of_option_Ok. Qed.

Lemma load_Some p h o : ops h !! p = Some o -> load p h = Ok o.
Proof. unfold load. intros ->. reflexivity. Qed.

Ltac inv_bind H :=
  let a := fresh "x" in
  let H1 := fresh H "a" in
  let H2 := fresh H "b" in
  apply bind_Ok in H; destruct H as (a & H1 & H2).

Lemma Ok_inj {A} (a b : A) : Ok a = Ok b -> a = b.
Proof. congruence. Qed.

Lemma for_each_ext f g l h :
  (forall i h0, f i h0 = g i h0) -> for_each f l h = for_each g l h.
Proof.
  intros E. revert h. induction l as [|i l IH]; intros h; simpl; [done|].
  rewrite E. destruct (g i h); simpl; auto.
Qed.

(** A loop whose body stays inside a preorder stays inside it. *)
Lemma for_each_preorder (R : Heap -> Heap -> Prop) f l :
  (forall h, R h h) ->
  (forall h1 h2 h3, R h1 h2 -> R h2 h3 -> R h1 h3) ->
  (forall i h h', f i h = Ok h' -> R h h') ->
  forall h h', for_each f l h = Ok h' -> R h h'.
Proof.
  intros Hrefl Htrans Hf. induction l as [|i l IH]; intros h h' H; simpl in H.
  - apply Ok_inj in H. subst. apply Hrefl.
  - inv_bind H. eapply Htrans; eauto.
Qed.

(** ** The four setters are instances of [broadcast] *)

Lemma set_custream_broadcast s fuel this h :
  set_custream fuel this s h
  = broadcast (with_custream s) (Some (Tensor_set_custream s)) fuel this h.
Proof.
  revert this h. induction fuel as [|n IH]; intros this h; simpl; [done|].
  destruct (load this h) as [o| | |]; simpl; try done.
  rewrite (for_each_ext _ (broadcast (with_custream s) (Some (Tensor_set_custream s)) n));
    [done | intros; apply IH].
Qed.

Lemma set_cublas_handle_broadcast c fuel this h :
  set_cublas_handle fuel this c h
  = broadcast (with_cublas_handle c) (Some (Tensor_set_cublas_handle c)) fuel this h.
Proof.
  revert this h. induction fuel as [|n IH]; intros this h; simpl; [done|].
  destruct (load this h) as [o| | |]; simpl; try done.
  rewrite (for_each_ext _
             (broadcast (with_cublas_handle c) (Some (Tensor_set_cublas_handle c)) n));
    [done | intros; apply IH].
Qed.

Lemma set_cudnn_handle_broadcast c fuel this h :
  set_cudnn_handle fuel this c h = broadcast (with_cudnn_handle c) None fuel this h.
Proof.
  revert this h. induction fuel as [|n IH]; intros this h; simpl; [done|].
  destruct (load this h) as [o| | |]; simpl; try done.
  rewrite (for_each_ext _ (broadcast (with_cudnn_handle c) None n));
    [| intros; apply IH].
  destruct (for_each _ _ _) as [h1| | |]; simpl; try done.
  destruct (load this h1); done.
Qed.

Lemma set_async_broadcast a fuel this h :
  set_async fuel this a h = broadcast (with_async a) None fuel this h.
Proof.
  revert this h. induction fuel as [|n IH]; intros this h; simpl; [done|].
  destruct (load this h) as [o| | |]; simpl; try done.
  rewrite (for_each_ext _ (broadcast (with_async a) None n));
    [| intros; apply IH].
  destruct (for_each _ _ _) as [h1| | |]; simpl; try done.
  destruct (load this h1); done.
Qed.

(** ** Stores that keep the graph *)

Lemma wf_at_le n : forall h h' p,
  graph_le h h' -> wf_at n h p = true -> wf_at n h' p = true.
Proof.
  induction n as [|n IH]; intros h h' p R H; simpl in *; [done|].
  destruct (ops h !! p) as [o|] eqn:Hp; [|done].
  destruct (proj1 R _ _ Hp) as (o' & -> & Ei & Et). rewrite Ei, Et.
  apply andb_true_iff in H as [Ht Hi]. apply andb_true_iff. split.
  - apply orb_true_iff in Ht as [Ht|Ht]; apply orb_true_iff; [by left|right].
    apply bool_decide_eq_true in Ht. apply bool_decide_eq_true. by apply R.
  - apply forallb_forall. intros i Hin.
    eapply IH; [exact R|]. eapply forallb_forall in Hi; eauto.
Qed.

Lemma reach_le h h' p q : graph_le h h' -> reach h p q -> reach h' p q.
Proof.
  intros R Hr. induction Hr as [p|p o i q Hp Hi Hr IH]; [constructor|].
  destruct (proj1 R _ _ Hp) as (o' & Ho' & E & _).
  eapply reach_step; eauto. by rewrite E.
Qed.

Lemma wf_at_live n h p : wf_at n h p = true -> is_Some (ops h !! p).
Proof. destruct n; simpl; [done|]. destruct (ops h !! p); [eauto | done]. Qed.

(** The conditional write to the cached output tensor, in the generic form. *)
Lemma tensor_step (g : option (Tensor -> Tensor)) a h h2 :
  match g with
  | Some f =>
      if (a =? NULL)%N then Ok h
      else t ← load_tensor a h; Ok (store_tensor a (f t) h)
  | None => Ok h
  end = Ok h2 ->
  (h2 = h /\ (is_Some g -> a = NULL))
  \/ (exists t, tensors h !! a = Some t /\ h2 = store_tensor a (tfun g t) h).
Proof.
  destruct g as [f|]; simpl.
  - destruct (a =? NULL)%N eqn:En.
    + intros H. apply Ok_inj in H. left. split; [done|]. intros _. by apply N.eqb_eq.
    + intros H. inv_bind H. apply Ok_inj in Hb. apply of_option_Ok in Ha. right. eauto.
  - intros H. apply Ok_inj in H. left. split; [done|]. intros [? ?]; discriminate.
Qed.

Lemma tensor_step_ok (g : option (Tensor -> Tensor)) a h :
  ((a =? NULL)%N || bool_decide (is_Some (tensors h !! a))) = true ->
  exists h2,
    match g with
    | Some f =>
        if (a =? NULL)%N then Ok h
        else t ← load_tensor a h; Ok (store_tensor a (f t) h)
    | None => Ok h
    end = Ok h2 /\ ops h2 = ops h.
Proof.
  intros H. destruct g as [f|]; [|eauto].
  destruct (a =? NULL)%N; [eauto|]. simpl in H.
  apply bool_decide_eq_true in H as [t Ht]. unfold load_tensor. rewrite Ht. simpl. eauto.
Qed.

(** ** What a broadcast does to the store *)

Section BroadcastFacts.

Variable set_op : Operation -> Operation.
Variable set_t : option (Tensor -> Tensor).

Hypothesis set_op_inputs : forall o, inputs (set_op o) = inputs o.
Hypothesis set_op_output_tensor : forall o, output_tensor (set_op o) = output_tensor o.
Hypothesis set_op_idem : forall o, set_op (set_op o) = set_op o.
Hypothesis set_t_idem : forall t, tfun set_t (tfun set_t t) = tfun set_t t.

Lemma upd_rel_refl {A} (f : A -> A) x : upd_rel f x x.
Proof. destruct x; simpl; auto. Qed.

Lemma upd_rel_trans {A} (f : A -> A) x y z :
  (forall a, f (f a) = f a) -> upd_rel f x y -> upd_rel f y z -> upd_rel f x z.
Proof.
  intros Hf. destruct x, y, z; simpl; try tauto.
  intros [->| ->] [->| ->]; auto.
Qed.

Lemma bc_rel_refl h : bc_rel set_op set_t h h.
Proof. split; intros; apply upd_rel_refl. Qed.

Lemma bc_rel_trans h1 h2 h3 : bc_rel set_op set_t h1 h2 -> bc_rel set_op set_t h2 h3 -> bc_rel set_op set_t h1 h3.
Proof.
  intros [A1 B1] [A2 B2]. split; intros q.
  - eapply upd_rel_trans; eauto.
  - eapply upd_rel_trans; eauto.
Qed.

Lemma bc_rel_store h p o :
  ops h !! p = Some o -> bc_rel set_op set_t h (store p (set_op o) h).
Proof.
  intros Hp. split; intros q; simpl; [|apply upd_rel_refl].
  destruct (decide (p = q)) as [->|Hne].
  - rewrite lookup_insert_eq, Hp. simpl. auto.
  - rewrite lookup_insert_ne by done. apply upd_rel_refl.
Qed.

Lemma bc_rel_store_tensor h a t :
  tensors h !! a = Some t -> bc_rel set_op set_t h (store_tensor a (tfun set_t t) h).
Proof.
  intros Ha. split; intros q; simpl; [apply upd_rel_refl|].
  destruct (decide (a = q)) as [->|Hne].
  - rewrite lookup_insert_eq, Ha. simpl. auto.
  - rewrite lookup_insert_ne by done. apply upd_rel_refl.
Qed.

Lemma bc_rel_op h h' q o :
  bc_rel set_op set_t h h' -> ops h !! q = Some o ->
  exists o', ops h' !! q = Some o' /\ (o' = o \/ o' = set_op o).
Proof.
  intros [A _] Hq. specialize (A q). rewrite Hq in A.
  destruct (ops h' !! q) as [o'|]; simpl in A; [eauto | tauto].
Qed.

Lemma bc_rel_tensor h h' a t :
  bc_rel set_op set_t h h' -> tensors h !! a = Some t ->
  exists t', tensors h' !! a = Some t' /\ (t' = t \/ t' = tfun set_t t).
Proof.
  intros [_ B] Ha. specialize (B a). rewrite Ha in B.
  destruct (tensors h' !! a) as [t'|]; simpl in B; [eauto | tauto].
Qed.

(** A member the setter does not write keeps its value. *)
Lemma bc_rel_field {B} (f : Operation -> B) h h' q o :
  (forall o0, f (set_op o0) = f o0) ->
  bc_rel set_op set_t h h' -> ops h !! q = Some o ->
  exists o', ops h' !! q = Some o' /\ f o' = f o.
Proof.
  intros Hf R Hq. destruct (bc_rel_op _ _ _ _ R Hq) as (o' & Ho' & [->| ->]); eauto.
Qed.

Lemma bc_rel_tensor_field {B} (f : Tensor -> B) h h' a t :
  (forall t0, f (tfun set_t t0) = f t0) ->
  bc_rel set_op set_t h h' -> tensors h !! a = Some t ->
  exists t', tensors h' !! a = Some t' /\ f t' = f t.
Proof.
  intros Hf R Ha. destruct (bc_rel_tensor _ _ _ _ R Ha) as (t' & Ht' & [->| ->]); eauto.
Qed.

Lemma broadcast_rel fuel : forall this h h',
  broadcast set_op set_t fuel this h = Ok h' -> bc_rel set_op set_t h h'.
Proof.
  induction fuel as [|n IH]; intros this h h' H; simpl in H; [discriminate|].
  inv_bind H. inv_bind Hb. inv_bind Hbb. rename x into o, x0 into h1, x1 into o1.
  inv_bind Hbbb. rename x into h2. inv_bind Hbbbb. rename x into o2.
  apply Ok_inj in Hbbbbb. subst h'.
  assert (R1 : bc_rel set_op set_t h h1).
  { eapply (for_each_preorder (bc_rel set_op set_t)); eauto using bc_rel_refl, bc_rel_trans. }
  assert (R2 : bc_rel set_op set_t h1 h2).
  { destruct (tensor_step _ _ _ _ Hbbba) as [[-> _]|(t & Ht & ->)].
    - apply bc_rel_refl.
    - by apply bc_rel_store_tensor. }
  eapply bc_rel_trans; [exact R1|]. eapply bc_rel_trans; [exact R2|].
  apply bc_rel_store. by apply load_Ok.
Qed.

Lemma bc_rel_graph_le h h' : bc_rel set_op set_t h h' -> graph_le h h'.
Proof.
  intros R. split.
  - intros q o Hq. destruct (bc_rel_op _ _ _ _ R Hq) as (o' & Ho' & [->| ->]); eauto.
  - intros a [t Ha]. destruct (bc_rel_tensor _ _ _ _ R Ha) as (t' & -> & _). eauto.
Qed.

(** Depth and liveness survive a broadcast. *)
Lemma wf_at_rel n h h' p : bc_rel set_op set_t h h' -> wf_at n h p = true -> wf_at n h' p = true.
Proof. intros R. apply wf_at_le. by apply bc_rel_graph_le. Qed.

Lemma reach_rel h h' p q : bc_rel set_op set_t h h' -> reach h p q -> reach h' p q.
Proof. intros R. apply reach_le. by apply bc_rel_graph_le. Qed.

(** With enough fuel for the depth of the graph the recursion returns. *)
Lemma for_each_broadcast_ok n :
  (forall p h, wf_at n h p = true -> exists h', broadcast set_op set_t n p h = Ok h') ->
  forall l h, forallb (wf_at n h) l = true ->
  exists h', for_each (broadcast set_op set_t n) l h = Ok h'.
Proof.
  intros IH. induction l as [|i l IHl]; intros h Hl; simpl in *; [eauto|].
  apply andb_true_iff in Hl as [Hi Hl].
  destruct (IH _ _ Hi) as (h1 & E1). rewrite E1. simpl.
  apply IHl. apply forallb_forall. intros j Hj.
  eapply wf_at_rel; [eapply broadcast_rel; eauto|].
  eapply forallb_forall in Hl; eauto.
Qed.

Lemma broadcast_ok n : forall p h,
  wf_at n h p = true -> exists h', broadcast set_op set_t n p h = Ok h'.
Proof.
  induction n as [|n IH]; intros p h H; [done|].
  simpl in H. destruct (ops h !! p) as [o|] eqn:Hp; [|done].
  apply andb_true_iff in H as [Ht Hi].
  destruct (for_each_broadcast_ok n IH _ _ Hi) as (h1 & E1).
  assert (R1 : bc_rel set_op set_t h h1).
  { eapply (for_each_preorder (bc_rel set_op set_t)); eauto using bc_rel_refl, bc_rel_trans.
    intros; eapply broadcast_rel; eauto. }
  destruct (bc_rel_field output_tensor _ _ _ _ set_op_output_tensor R1 Hp)
    as (o1 & Ho1 & Et).
  simpl. rewrite (load_Some _ _ _ Hp). simpl. rewrite E1. simpl.
  rewrite (load_Some _ _ _ Ho1). simpl.
  destruct (tensor_step_ok set_t (output_tensor o1) h1) as (h2 & -> & E2).
  { rewrite Et. apply orb_true_iff in Ht as [Ht|Ht]; apply orb_true_iff; [by left|right].
    apply bool_decide_eq_true in Ht as [t Ht]. apply bool_decide_eq_true.
    destruct (bc_rel_tensor _ _ _ _ R1 Ht) as (t' & -> & _). eauto. }
  simpl. unfold load. rewrite E2, Ho1. simpl. eauto.
Qed.

Lemma settled_rel h h' q : bc_rel set_op set_t h h' -> settled set_op set_t h q -> settled set_op set_t h' q.
Proof.
  intros R (o & Hq & Hs & Ht).
  destruct (bc_rel_op _ _ _ _ R Hq) as (o' & Ho' & E).
  assert (o' = o) as -> by (destruct E as [->| ->]; congruence).
  exists o. split; [done|]. split; [done|]. intros Hst Hn.
  destruct (Ht Hst Hn) as (t & Ha & Hf).
  destruct (bc_rel_tensor _ _ _ _ R Ha) as (t' & Ht' & E').
  exists t'. split; [done|]. destruct E' as [->| ->]; congruence.
Qed.

Lemma broadcast_settled n : forall p h h',
  broadcast set_op set_t n p h = Ok h' -> forall q, reach h p q -> settled set_op set_t h' q.
Proof.
  induction n as [|n IH]; intros p h h' H q Hr; simpl in H; [discriminate|].
  inv_bind H. inv_bind Hb. inv_bind Hbb. rename x into o, x0 into h1, x1 into o1.
  inv_bind Hbbb. rename x into h2. inv_bind Hbbbb. rename x into o2.
  apply Ok_inj in Hbbbbb. subst h'.
  apply load_Ok in Ha, Hbba, Hbbbba.
  assert (L : forall l h0 h3, for_each (broadcast set_op set_t n) l h0 = Ok h3 ->
              forall i, i ∈ l -> forall q0, reach h0 i q0 -> settled set_op set_t h3 q0).
  { induction l as [|j l IHl]; intros h0 h3 Hl i Hi q0 Hq0; simpl in Hl.
    - by apply elem_of_nil in Hi.
    - inv_bind Hl. rename x into h4.
      assert (R4 : bc_rel set_op set_t h0 h4) by (eapply broadcast_rel; eauto).
      apply elem_of_cons in Hi as [->|Hi].
      + eapply settled_rel; [|eapply IH; eauto].
        eapply (for_each_preorder (bc_rel set_op set_t)); eauto using bc_rel_refl, bc_rel_trans.
        intros; eapply broadcast_rel; eauto.
      + eapply IHl; eauto. eapply reach_rel; eauto. }
  assert (R2 : bc_rel set_op set_t h1 h2 /\ ops h2 = ops h1
               /\ (is_Some set_t -> output_tensor o1 <> NULL ->
                   exists t, tensors h2 !! output_tensor o1 = Some t
                             /\ tfun set_t t = t)).
  { destruct (tensor_step _ _ _ _ Hbbba) as [[-> Hnull]|(t & Ht & ->)].
    - split; [apply bc_rel_refl|]. split; [done|]. intros Hs Hn. by specialize (Hnull Hs).
    - split; [by apply bc_rel_store_tensor|]. split; [done|].
      intros _ _. exists (tfun set_t t). simpl. rewrite lookup_insert_eq.
      split; [done|]. apply set_t_idem. }
  destruct R2 as (R2 & E2 & T2).
  assert (o2 = o1) as -> by (rewrite E2 in Hbbbba; congruence).
  inversion Hr as [|p0 o0 i q0 Hp Hi Hr']; subst.
  - exists (set_op o1). simpl. rewrite lookup_insert_eq.
    split; [done|]. split; [apply set_op_idem|].
    rewrite set_op_output_tensor. exact T2.
  - assert (o0 = o) as -> by congruence.
    eapply settled_rel; [|eapply L; eauto].
    eapply bc_rel_trans; [exact R2|]. apply bc_rel_store. by rewrite E2.
Qed.

End BroadcastFacts.

(** ** The frame of context propagation *)

Lemma ctx_frame_refl h : ctx_frame h h.
Proof.
  split; intros q.
  - destruct (ops h !! q); simpl; [|done]. unfold same_but_context. tauto.
  - destruct (tensors h !! q); simpl; done.
Qed.

Lemma ctx_frame_trans h1 h2 h3 : ctx_frame h1 h2 -> ctx_frame h2 h3 -> ctx_frame h1 h3.
Proof.
  intros [A1 B1] [A2 B2]. split; intros q.
  - specialize (A1 q). specialize (A2 q).
    destruct (ops h1 !! q), (ops h2 !! q), (ops h3 !! q); simpl in *; try tauto.
    unfold same_but_context in *. intuition congruence.
  - specialize (B1 q). specialize (B2 q).
    destruct (tensors h1 !! q), (tensors h2 !! q), (tensors h3 !! q);
      simpl in *; try tauto.
    unfold same_but_context_t in *. congruence.
Qed.

Lemma ctx_frame_op h h' q o :
  ctx_frame h h' -> ops h !! q = Some o ->
  exists o', ops h' !! q = Some o' /\ same_but_context o o'.
Proof.
  intros [A _] Hq. specialize (A q). rewrite Hq in A.
  destruct (ops h' !! q) as [o'|]; simpl in A; [eauto | tauto].
Qed.

Lemma ctx_frame_fresh h h' q : ctx_frame h h' -> ops h !! q = None -> ops h' !! q = None.
Proof.
  intros [A _] Hq. specialize (A q). rewrite Hq in A.
  destruct (ops h' !! q); simpl in A; [tauto | done].
Qed.

Lemma ctx_frame_tensor h h' a t :
  ctx_frame h h' -> tensors h !! a = Some t ->
  exists t', tensors h' !! a = Some t' /\ t_cudnn_handle t' = t_cudnn_handle t.
Proof.
  intros [_ B] Ha. specialize (B a). rewrite Ha in B.
  destruct (tensors h' !! a) as [t'|]; simpl in B; [eauto | tauto].
Qed.

Lemma bc_rel_ctx_frame set_op set_t h h' :
  (forall o, same_but_context o (set_op o)) ->
  (forall t, same_but_context_t t (tfun set_t t)) ->
  bc_rel set_op set_t h h' -> ctx_frame h h'.
Proof.
  intros Ho Ht [A B]. split; intros q.
  - specialize (A q). destruct (ops h !! q) as [o|], (ops h' !! q) as [o'|];
      simpl in *; try tauto.
    destruct A as [->| ->]; [unfold same_but_context; tauto | apply Ho].
  - specialize (B q). destruct (tensors h !! q) as [t|], (tensors h' !! q) as [t'|];
      simpl in *; try tauto.
    destruct B as [->| ->]; [done | apply Ht].
Qed.

Lemma ctx_frame_graph_le h h' : ctx_frame h h' -> graph_le h h'.
Proof.
  intros R. split.
  - intros q o Hq. destruct (ctx_frame_op _ _ _ _ R Hq) as (o' & Ho' & E).
    unfold same_but_context in E. exists o'. tauto.
  - intros a [t Ha]. destruct (ctx_frame_tensor _ _ _ _ R Ha) as (t' & -> & _). eauto.
Qed.

Lemma wf_at_frame n h h' p : ctx_frame h h' -> wf_at n h p = true -> wf_at n h' p = true.
Proof. intros R. apply wf_at_le. by apply ctx_frame_graph_le. Qed.

Lemma reach_frame h h' p q : ctx_frame h h' -> reach h p q -> reach h' p q.
Proof. intros R. apply reach_le. by apply ctx_frame_graph_le. Qed.

(** Each setter as a broadcast, with its side conditions discharged. *)
Ltac frame_of_broadcast f g :=
  let H := fresh in
  intros H;
  apply (bc_rel_ctx_frame f g);
  [ intros ?; unfold same_but_context; simpl; tauto
  | intros ?; reflexivity
  | apply (broadcast_rel f g) in H; [exact H | reflexivity | reflexivity] ].

Section Setters.

Variables (fuel : nat) (this : N) (h h' : Heap).

Lemma set_custream_frame s : set_custream fuel this s h = Ok h' -> ctx_frame h h'.
Proof.
  rewrite set_custream_broadcast.
  frame_of_broadcast (with_custream s) (Some (Tensor_set_custream s)).
Qed.

Lemma set_cublas_handle_frame c : set_cublas_handle fuel this c h = Ok h' -> ctx_frame h h'.
Proof.
  rewrite set_cublas_handle_broadcast.
  frame_of_broadcast (with_cublas_handle c) (Some (Tensor_set_cublas_handle c)).
Qed.

Lemma set_cudnn_handle_frame c : set_cudnn_handle fuel this c h = Ok h' -> ctx_frame h h'.
Proof.
  rewrite set_cudnn_handle_broadcast.
  frame_of_broadcast (with_cudnn_handle c) (@None (Tensor -> Tensor)).
Qed.

Lemma set_async_frame a : set_async fuel this a h = Ok h' -> ctx_frame h h'.
Proof.
  rewrite set_async_broadcast.
  frame_of_broadcast (with_async a) (@None (Tensor -> Tensor)).
Qed.

End Setters.

(** ** What a context propagation establishes *)

Section Keeps.

Variable set_op : Operation -> Operation.
Variable set_t : option (Tensor -> Tensor).
Hypothesis set_op_output_tensor : forall o, output_tensor (set_op o) = output_tensor o.

Lemma node_has_rel fo v h h' q :
  (forall o, fo (set_op o) = fo o) ->
  bc_rel set_op set_t h h' -> node_has fo v h q -> node_has fo v h' q.
Proof.
  intros Hf R (o & Hq & Hv).
  destruct (bc_rel_field set_op set_t fo _ _ _ _ Hf R Hq) as (o' & Ho' & E).
  exists o'. split; [done | congruence].
Qed.

Lemma tensor_has_rel ft v h h' q :
  (forall t, ft (tfun set_t t) = ft t) ->
  bc_rel set_op set_t h h' -> is_Some (ops h !! q) ->
  tensor_has ft v h q -> tensor_has ft v h' q.
Proof.
  intros Hf R [o Hq] Ht o' Ho' Hn.
  destruct (bc_rel_field set_op set_t output_tensor _ _ _ _ set_op_output_tensor R Hq)
    as (o'' & Ho'' & E).
  assert (o'' = o') as -> by congruence. rewrite E in *.
  destruct (Ht o Hq Hn) as (t & Ha & Hv).
  destruct (bc_rel_tensor_field set_op set_t ft _ _ _ _ Hf R Ha) as (t' & Ht' & E').
  exists t'. split; [done | congruence].
Qed.

End Keeps.

Lemma settled_custream s h q :
  settled (with_custream s) (Some (Tensor_set_custream s)) h q ->
  node_has custream_ s h q /\ tensor_has t_custream s h q.
Proof.
  intros (o & Hq & Hs & Ht). split.
  - exists o. split; [done|]. by rewrite <- Hs.
  - intros o' Ho' Hn. assert (o' = o) as -> by congruence.
    destruct (Ht (ltac:(eauto)) Hn) as (t & Ha & E).
    exists t. split; [done|]. simpl in E. by rewrite <- E.
Qed.

Lemma settled_cublas_handle c h q :
  settled (with_cublas_handle c) (Some (Tensor_set_cublas_handle c)) h q ->
  node_has cublas_handle_ c h q /\ tensor_has t_cublas_handle c h q.
Proof.
  intros (o & Hq & Hs & Ht). split.
  - exists o. split; [done|]. by rewrite <- Hs.
  - intros o' Ho' Hn. assert (o' = o) as -> by congruence.
    destruct (Ht (ltac:(eauto)) Hn) as (t & Ha & E).
    exists t. split; [done|]. simpl in E. by rewrite <- E.
Qed.

Lemma settled_cudnn_handle c h q :
  settled (with_cudnn_handle c) None h q -> node_has cudnn_handle_ c h q.
Proof. intros (o & Hq & Hs & _). exists o. split; [done|]. by rewrite <- Hs. Qed.

(** The post-condition of [cuda_exec_context]: it returns, it writes nothing
    but context members, and below [this] every node and every cached output
    tensor holds what the header propagates to it. *)
Lemma cuda_exec_context_spec n this ctx h :
  wf_at n h this = true ->
  exists h', cuda_exec_context n this ctx h = Ok h' /\ ctx_frame h h'
    /\ forall q, reach h this q ->
         node_has custream_ (stream ctx) h' q
         /\ node_has cublas_handle_ (cublas_handle ctx) h' q
         /\ node_has cudnn_handle_ (cudnn_handle ctx) h' q
         /\ tensor_has t_custream (stream ctx) h' q
         /\ tensor_has t_cublas_handle (cublas_handle ctx) h' q.
Proof.
  intros Hwf. unfold cuda_exec_context.
  set (f1 := with_custream (stream ctx)).
  set (g1 := Some (Tensor_set_custream (stream ctx))).
  set (f2 := with_cublas_handle (cublas_handle ctx)).
  set (g2 := Some (Tensor_set_cublas_handle (cublas_handle ctx))).
  set (f3 := with_cudnn_handle (cudnn_handle ctx)).
  set (g3 := @None (Tensor -> Tensor)).
  destruct (broadcast_ok f1 g1 ltac:(done) ltac:(done) ltac:(done) ltac:(done) n this h Hwf)
    as (h1 & E1).
  pose proof (broadcast_rel f1 g1 ltac:(done) ltac:(done) _ _ _ _ E1) as R1.
  pose proof (broadcast_settled f1 g1 ltac:(done) ltac:(done) ltac:(done) ltac:(done)
                _ _ _ _ E1) as D1.
  pose proof (wf_at_rel f1 g1 ltac:(done) ltac:(done) _ _ _ _ R1 Hwf) as Hwf1.
  destruct (broadcast_ok f2 g2 ltac:(done) ltac:(done) ltac:(done) ltac:(done) n this h1 Hwf1)
    as (h2 & E2).
  pose proof (broadcast_rel f2 g2 ltac:(done) ltac:(done) _ _ _ _ E2) as R2.
  pose proof (broadcast_settled f2 g2 ltac:(done) ltac:(done) ltac:(done) ltac:(done)
                _ _ _ _ E2) as D2.
  pose proof (wf_at_rel f2 g2 ltac:(done) ltac:(done) _ _ _ _ R2 Hwf1) as Hwf2.
  destruct (broadcast_ok f3 g3 ltac:(done) ltac:(done) ltac:(done) ltac:(done) n this h2 Hwf2)
    as (h3 & E3).
  pose proof (broadcast_rel f3 g3 ltac:(done) ltac:(done) _ _ _ _ E3) as R3.
  pose proof (broadcast_settled f3 g3 ltac:(done) ltac:(done) ltac:(done) ltac:(done)
                _ _ _ _ E3) as D3.
  exists h3. split; [|split].
  - rewrite set_custream_broadcast. fold f1 g1. rewrite E1. simpl.
    rewrite set_cublas_handle_broadcast. fold f2 g2. rewrite E2. simpl.
    rewrite set_cudnn_handle_broadcast. exact E3.
  - eapply ctx_frame_trans; [|eapply ctx_frame_trans].
    + eapply set_custream_frame. rewrite set_custream_broadcast. exact E1.
    + eapply set_cublas_handle_frame. rewrite set_cublas_handle_broadcast. exact E2.
    + eapply set_cudnn_handle_frame. rewrite set_cudnn_handle_broadcast. exact E3.
  - intros q Hq.
    assert (Hq1 : reach h1 this q) by (eapply (reach_rel f1 g1); eauto; done).
    assert (Hq2 : reach h2 this q) by (eapply (reach_rel f2 g2); eauto; done).
    destruct (settled_custream _ _ _ (D1 q Hq)) as (N1 & T1).
    destruct (settled_cublas_handle _ _ _ (D2 q Hq1)) as (N2 & T2).
    pose proof (settled_cudnn_handle _ _ _ (D3 q Hq2)) as N3.
    assert (S1 : is_Some (ops h1 !! q)) by (destruct N1 as (? & ? & _); eauto).
    assert (S2 : is_Some (ops h2 !! q)) by (destruct N2 as (? & ? & _); eauto).
    repeat split.
    + eapply (node_has_rel f3 g3); [done|exact R3|].
      eapply (node_has_rel f2 g2); [done|exact R2|exact N1].
    + eapply (node_has_rel f3 g3); [done|exact R3|exact N2].
    + exact N3.
    + eapply (tensor_has_rel f3 g3); [done|done|exact R3|exact S2|].
      eapply (tensor_has_rel f2 g2); [done|done|exact R2|exact S1|exact T1].
    + eapply (tensor_has_rel f3 g3); [done|done|exact R3|exact S2|exact T2].
Qed.

(** ** The constructor *)

Lemma with_consumers_id o : with_consumers (consumers o) o = o.
Proof. by destruct o. Qed.

Lemma with_grad_cache_id o : with_grad_cache (_grad_cache o) o = o.
Proof. by destruct o. Qed.

(** The cache after a run of [insert] calls with null values. *)
Lemma insert_new_fold_lookup (vit : list N) : forall (m : gmap N N) (k : N),
  fold_left (fun m i => map_insert_new i NULL m) vit m !! k
  = match m !! k with
    | Some v => Some v
    | None => if decide (k ∈ vit) then Some NULL else None
    end.
Proof.
  induction vit as [|i vit IH]; intros m k.
  - simpl fold_left. destruct (m !! k); [done|].
    case_decide as H; [by apply elem_of_nil in H | done].
  - simpl fold_left. rewrite IH. unfold map_insert_new.
    destruct (decide (k = i)) as [->|Hne].
    + destruct (m !! i) eqn:Hi; rewrite ?Hi; [done|].
      rewrite lookup_insert_eq. case_decide as H; [done|].
      exfalso. apply H. apply elem_of_cons; auto.
    + assert (E : (match m !! i with Some _ => m | None => <[i:=NULL]> m end) !! k = m !! k).
      { destruct (m !! i); [done|]. by rewrite lookup_insert_ne. }
      rewrite E. destruct (m !! k); [done|].
      repeat case_decide; try done.
      * exfalso. rewrite elem_of_cons in *. tauto.
      * exfalso. rewrite elem_of_cons in *. tauto.
Qed.

(** The loop of the constructor: every input gains one consumer entry per
    occurrence when [needs_grad] is set, and every input gets a cache slot. *)
Lemma register_inputs_spec this ng (vit : list N) : forall h o0,
  ops h !! this = Some o0 ->
  (forall i, i ∈ vit -> i <> this /\ is_Some (ops h !! i)) ->
  exists h1, register_inputs this ng vit h = Ok h1
    /\ tensors h1 = tensors h
    /\ ops h1 !! this
       = Some (with_grad_cache
                 (fold_left (fun m i => map_insert_new i NULL m) vit (_grad_cache o0)) o0)
    /\ forall q, q <> this ->
         ops h1 !! q
         = (fun o => with_consumers
                       (consumers o
                        ++ (if ng then replicate (count_occ N.eq_dec vit q) this else [])) o)
             <$> ops h !! q.
Proof.
  induction vit as [|i vit IH]; intros h o0 Hthis Hin; simpl.
  - exists h. split; [done|]. split; [done|]. split.
    + by rewrite with_grad_cache_id.
    + intros q _. destruct (ops h !! q) as [o|]; simpl; [|done].
      f_equal. destruct ng; simpl; rewrite app_nil_r; by rewrite with_consumers_id.
  - destruct (Hin i ltac:(apply elem_of_cons; auto)) as (Hne & oi & Hi).
    set (h1 := if ng then store i (with_consumers (consumers oi ++ [this]) oi) h else h).
    assert (E1 : (if ng then add_consumer i this h else Ok h) = Ok h1).
    { subst h1. destruct ng; [|done]. unfold add_consumer.
      by rewrite (load_Some _ _ _ Hi). }
    assert (Hthis1 : ops h1 !! this = Some o0).
    { subst h1. destruct ng; [|done]. simpl. by rewrite lookup_insert_ne. }
    rewrite E1. simpl. rewrite (load_Some _ _ _ Hthis1). simpl.
    set (o1 := with_grad_cache (map_insert_new i NULL (_grad_cache o0)) o0).
    destruct (IH (store this o1 h1) o1) as (h2 & E2 & T2 & C2 & F2).
    { simpl. by rewrite lookup_insert_eq. }
    { intros j Hj. destruct (Hin j ltac:(apply elem_of_cons; auto)) as (Hjne & oj & Hj').
      split; [done|]. simpl. rewrite lookup_insert_ne by done.
      subst h1. destruct ng; [|eauto]. simpl.
      destruct (decide (i = j)) as [->|Hij].
      - rewrite lookup_insert_eq. eauto.
      - rewrite lookup_insert_ne by done. eauto. }
    exists h2. split; [done|]. split.
    { rewrite T2. simpl. subst h1. by destruct ng. }
    split; [by rewrite C2|].
    intros q Hq. rewrite (F2 q Hq). simpl. rewrite lookup_insert_ne by done.
    subst h1. destruct ng; simpl.
    + destruct (decide (i = q)) as [->|Hiq].
      * rewrite lookup_insert_eq, Hi. simpl. f_equal.
        destruct (N.eq_dec q q) as [_|]; [|done]. simpl.
        unfold with_consumers. simpl. f_equal. by rewrite <- app_assoc.
      * rewrite lookup_insert_ne by done.
        destruct (N.eq_dec i q) as [|_]; [done|]. done.
    + done.
Qed.

Lemma default_context_spec cuda c1 c2 n this h :
  wf_at n h this = true ->
  exists h', default_context cuda c1 c2 n this h = Ok h' /\ ctx_frame h h'.
Proof.
  intros Hwf. unfold default_context. destruct cuda.
  2:{ exists h. split; [done | apply ctx_frame_refl]. }
  set (f1 := with_custream NULL). set (g1 := Some (Tensor_set_custream NULL)).
  set (f2 := with_cudnn_handle c1). set (g2 := @None (Tensor -> Tensor)).
  set (f3 := with_cublas_handle c2). set (g3 := Some (Tensor_set_cublas_handle c2)).
  set (f4 := with_async false).
  rewrite set_custream_broadcast.
  destruct (broadcast_ok f1 g1 ltac:(done) ltac:(done) ltac:(done) ltac:(done) n this h Hwf)
    as (h1 & E1).
  fold f1 g1. rewrite E1. simpl.
  assert (R1 : ctx_frame h h1).
  { eapply set_custream_frame. rewrite set_custream_broadcast. exact E1. }
  pose proof (wf_at_frame _ _ _ _ R1 Hwf) as Hwf1.
  rewrite set_cudnn_handle_broadcast.
  destruct (broadcast_ok f2 g2 ltac:(done) ltac:(done) ltac:(done) ltac:(done) n this h1 Hwf1)
    as (h2 & E2).
  fold f2 g2. rewrite E2. simpl.
  assert (R2 : ctx_frame h1 h2).
  { eapply set_cudnn_handle_frame. rewrite set_cudnn_handle_broadcast. exact E2. }
  pose proof (wf_at_frame _ _ _ _ R2 Hwf1) as Hwf2.
  rewrite set_cublas_handle_broadcast.
  destruct (broadcast_ok f3 g3 ltac:(done) ltac:(done) ltac:(done) ltac:(done) n this h2 Hwf2)
    as (h3 & E3).
  fold f3 g3. rewrite E3. simpl.
  assert (R3 : ctx_frame h2 h3).
  { eapply set_cublas_handle_frame. rewrite set_cublas_handle_broadcast. exact E3. }
  pose proof (wf_at_frame _ _ _ _ R3 Hwf2) as Hwf3.
  rewrite set_async_broadcast.
  destruct (broadcast_ok f4 g2 ltac:(done) ltac:(done) ltac:(done) ltac:(done) n this h3 Hwf3)
    as (h4 & E4).
  exists h4. split; [exact E4|].
  assert (R4 : ctx_frame h3 h4).
  { eapply set_async_frame. rewrite set_async_broadcast. exact E4. }
  eauto using ctx_frame_trans.
Qed.

(** The state after [Operation(inputs, needs_grad)] has built a node at a
    fresh address [this] over live inputs of depth below [n]. *)
Lemma Operation_ctor_spec cuda c1 c2 n this raw (ins : list N) ng h :
  ops h !! this = None ->
  forallb (wf_at n h) ins = true ->
  exists h', Operation_ctor cuda c1 c2 (S n) this raw ins ng h = Ok h'
    /\ (exists o', ops h' !! this = Some o' /\ inputs o' = ins /\ consumers o' = []
          /\ needs_grad o' = ng /\ output_tensor o' = NULL
          /\ forall k, _grad_cache o' !! k = if decide (k ∈ ins) then Some NULL else None)
    /\ (forall q o, ops h !! q = Some o ->
          exists o', ops h' !! q = Some o'
            /\ consumers o'
               = consumers o ++ (if ng then replicate (count_occ N.eq_dec ins q) this else [])
            /\ inputs o' = inputs o /\ _grad_cache o' = _grad_cache o
            /\ needs_grad o' = needs_grad o
            /\ has_been_computed o' = has_been_computed o
            /\ output_tensor o' = output_tensor o)
    /\ (forall q, q <> this -> ops h !! q = None -> ops h' !! q = None).
Proof.
  intros Hfresh Hins. unfold Operation_ctor.
  match goal with |- context [store this ?o h] => set (o0 := o) end.
  assert (Hlive : forall i, i ∈ ins -> i <> this /\ is_Some (ops h !! i)).
  { intros i Hi. apply list_elem_of_In in Hi.
    eapply forallb_forall in Hins; [|exact Hi]. apply wf_at_live in Hins.
    split; [|done]. intros ->. rewrite Hfresh in Hins. by destruct Hins. }
  destruct (register_inputs_spec this ng ins (store this o0 h) o0) as (h1 & E1 & T1 & C1 & F1).
  { simpl. by rewrite lookup_insert_eq. }
  { intros i Hi. destruct (Hlive i Hi) as (Hne & Hs). split; [done|].
    simpl. by rewrite lookup_insert_ne. }
  rewrite E1. simpl.
  assert (F1' : forall q o, ops h !! q = Some o ->
            ops h1 !! q
            = Some (with_consumers
                      (consumers o
                       ++ (if ng then replicate (count_occ N.eq_dec ins q) this else [])) o)).
  { intros q o Hq. assert (q <> this) by (intros ->; congruence).
    rewrite F1 by done. simpl. rewrite lookup_insert_ne by done. by rewrite Hq. }
  assert (G1 : graph_le h h1).
  { split.
    - intros q o Hq. rewrite (F1' q o Hq). eauto.
    - intros a. by rewrite T1. }
  assert (Hwf : wf_at (S n) h1 this = true).
  { simpl. rewrite C1. simpl. apply forallb_forall. intros i Hi.
    eapply wf_at_le; [exact G1|]. eapply forallb_forall in Hins; eauto. }
  destruct (default_context_spec cuda c1 c2 (S n) this h1 Hwf) as (h' & E' & R').
  exists h'. split; [exact E'|]. split; [|split].
  - destruct (ctx_frame_op _ _ _ _ R' C1) as (o' & Ho' & S').
    unfold same_but_context in S'. simpl in S'.
    destruct S' as (Ei & Ec & _ & _ & Eg & _ & Et & En & _).
    exists o'. repeat split; try done.
    intros k. rewrite Eg, insert_new_fold_lookup. by rewrite lookup_empty.
  - intros q o Hq.
    destruct (ctx_frame_op _ _ _ _ R' (F1' q o Hq)) as (o' & Ho' & S').
    unfold same_but_context in S'. simpl in S'.
    exists o'. tauto.
  - intros q Hne Hq. apply (ctx_frame_fresh _ _ _ R').
    rewrite F1 by done. simpl. rewrite lookup_insert_ne by done. by rewrite Hq.
Qed.

(** ** Calls other than [eval] keep a node uncomputed *)

Lemma computed_store_other h p q o :
  p <> q -> computed (store q o h) p = computed h p.
Proof. intros Hne. unfold computed. simpl. by rewrite lookup_insert_ne. Qed.

Lemma computed_store_same h p o o' :
  ops h !! p = Some o -> has_been_computed o' = has_been_computed o ->
  computed (store p o' h) p = computed h p.
Proof. intros Hp E. unfold computed. simpl. by rewrite lookup_insert_eq, Hp. Qed.

Lemma computed_frame h h' p : ctx_frame h h' -> computed h' p = computed h p.
Proof.
  intros R. unfold computed. destruct (ops h !! p) as [o|] eqn:Hp.
  - destruct (ctx_frame_op _ _ _ _ R Hp) as (o' & -> & S).
    unfold same_but_context in S. tauto.
  - by rewrite (ctx_frame_fresh _ _ _ R Hp).
Qed.

Lemma cuda_exec_context_frame fuel this ctx h h' :
  cuda_exec_context fuel this ctx h = Ok h' -> ctx_frame h h'.
Proof.
  unfold cuda_exec_context. intros H. inv_bind H. inv_bind Hb.
  eapply ctx_frame_trans; [eapply set_custream_frame; eauto|].
  eapply ctx_frame_trans; [eapply set_cublas_handle_frame; eauto|].
  eapply set_cudnn_handle_frame; eauto.
Qed.

(** No call other than [eval] turns the flag on, as long as the local
    gradient rule does not. *)
Lemma run_call_keeps_uncomputed _grad c h h' p :
  (forall t c0 v g h0 r h1,
     _grad t c0 v g h0 = Ok (r, h1) -> computed h0 p = false -> computed h1 p = false) ->
  run_call _grad c h = Ok h' -> computed h p = false -> computed h' p = false.
Proof.
  intros Hg H Hp. destruct c; simpl in H.
  - unfold reset in H. inv_bind H. apply Ok_inj in Hb. subst h'. apply load_Ok in Ha.
    destruct (decide (p = p0)) as [->|Hne].
    + unfold computed. simpl. by rewrite lookup_insert_eq.
    + by rewrite computed_store_other.
  - unfold add_consumer in H. inv_bind H. apply Ok_inj in Hb. subst h'. apply load_Ok in Ha.
    destruct (decide (p = p0)) as [->|Hne].
    + by rewrite (computed_store_same _ _ x).
    + by rewrite computed_store_other.
  - apply set_custream_frame in H. by rewrite (computed_frame _ _ _ H).
  - apply set_cudnn_handle_frame in H. by rewrite (computed_frame _ _ _ H).
  - apply set_cublas_handle_frame in H. by rewrite (computed_frame _ _ _ H).
  - apply set_async_frame in H. by rewrite (computed_frame _ _ _ H).
  - apply cuda_exec_context_frame in H. by rewrite (computed_frame _ _ _ H).
  - inv_bind H. apply Ok_inj in Hb. subst h'. destruct x as [r h1]. simpl.
    unfold grad in Ha. destruct recompute; simpl in Ha; [by eapply Hg; eauto|].
    inv_bind Ha. apply load_Ok in Haa. rename x into o.
    destruct (map_subscript (_grad_cache o) var) as [ret cache].
    assert (Hs : computed (store p0 (with_grad_cache cache o) h) p = false).
    { destruct (decide (p = p0)) as [->|Hne].
      - by rewrite (computed_store_same _ _ o).
      - by rewrite computed_store_other. }
    destruct (negb (ret =? NULL)%N).
    + apply Ok_inj in Hab. by inversion Hab; subst.
    + eapply Hg; eauto.
Qed.

Lemma run_calls_keep_uncomputed _grad cs : forall h h' p,
  (forall t c0 v g h0 r h1,
     _grad t c0 v g h0 = Ok (r, h1) -> computed h0 p = false -> computed h1 p = false) ->
  run_calls _grad cs h = Ok h' -> computed h p = false -> computed h' p = false.
Proof.
  induction cs as [|c cs IH]; intros h h' p Hg H Hp; simpl in H.
  - apply Ok_inj in H. by subst.
  - inv_bind H. eapply IH; eauto. eapply run_call_keeps_uncomputed; eauto.
Qed.

(** * The claims *)

(** C1. Whenever [recompute] is false, the computed flag is set and the
    cached output tensor is non-null, [eval] returns the cached tensor and
    leaves the store as it was, whatever the forward rule is: the rule is
    not invoked.  Hence two calls of [eval(false)] in a row return the same
    tensor reference and the store is still unchanged after the second. *)
Theorem eval_cached_no_recompute
  (_eval : N -> bool -> Heap -> result (N * Heap)) (this : N) (h : Heap) (o : Operation) :
  ops h !! this = Some o ->
  has_been_computed o = true ->
  output_tensor o <> NULL ->
  eval _eval this false h = Ok (output_tensor o, h)
  /\ (r1 ← eval _eval this false h;
      r2 ← eval _eval this false (snd r1);
      Ok (fst r1, fst r2, snd r2)) = Ok (output_tensor o, output_tensor o, h)
  /\ forall rule, eval rule this false h = eval _eval this false h.
Proof.
  intros Hthis Hc Hn.
  assert (E : forall rule, eval rule this false h = Ok (output_tensor o, h)).
  { intros rule. unfold eval. rewrite (load_Some _ _ _ Hthis). simpl. rewrite Hc.
    apply N.eqb_neq in Hn. rewrite Hn. reflexivity. }
  split; [apply E|]. split.
  - rewrite E. simpl. rewrite E. reflexivity.
  - intros rule. by rewrite !E.
Qed.

Lemma eval_cached_no_recompute_witness :
  ops test_heap !! 3%N = Some (inner [1%N; 2%N] 50%N)
  /\ eval failing_eval 3%N false test_heap = Ok (50%N, test_heap).
Proof.
  split; [reflexivity|].
  apply (eval_cached_no_recompute failing_eval 3%N test_heap (inner [1%N; 2%N] 50%N));
    [reflexivity | reflexivity | discriminate].
Defined.

(** C7. [reset] returns on every live node; afterwards both flags are false
    and every other member of the node, every other node and every tensor
    is as before.  From there no sequence of calls other than [eval]
    (reset, add_consumer, the context setters, grad) makes the node
    "computed" again, provided the local gradient rule leaves the flag
    alone. *)
Theorem reset_only_clears_flags
  (_grad : N -> N -> N -> N -> Heap -> result (N * Heap)) (this : N) (h : Heap)
  (o : Operation) :
  (forall t c v g h0 r h1,
     _grad t c v g h0 = Ok (r, h1) -> computed h0 this = false -> computed h1 this = false) ->
  ops h !! this = Some o ->
  exists h' o', reset this h = Ok h' /\ ops h' !! this = Some o'
    /\ has_been_computed o' = false /\ has_grad_been_computed o' = false
    /\ output_tensor o' = output_tensor o /\ _grad_cache o' = _grad_cache o
    /\ inputs o' = inputs o /\ consumers o' = consumers o
    /\ output_shape o' = output_shape o /\ name o' = name o
    /\ mem_type o' = mem_type o /\ needs_grad o' = needs_grad o
    /\ custream_ o' = custream_ o /\ cudnn_handle_ o' = cudnn_handle_ o
    /\ cublas_handle_ o' = cublas_handle_ o /\ async_ o' = async_ o
    /\ (forall q, q <> this -> ops h' !! q = ops h !! q)
    /\ tensors h' = tensors h
    /\ forall cs h'', run_calls _grad cs h' = Ok h'' -> computed h'' this = false.
Proof.
  intros Hg Hthis. unfold reset. rewrite (load_Some _ _ _ Hthis). simpl.
  eexists _, _. split; [reflexivity|]. split; [simpl; apply lookup_insert_eq|].
  simpl. repeat (split; [reflexivity|]). split; [|split; [reflexivity|]].
  - intros q Hq. by rewrite lookup_insert_ne.
  - intros cs h'' Hrun. eapply run_calls_keep_uncomputed; eauto.
    unfold computed. simpl. by rewrite lookup_insert_eq.
Qed.

Lemma reset_only_clears_flags_witness :
  ops test_heap !! 3%N = Some (inner [1%N; 2%N] 50%N)
  /\ exists h', reset 3%N test_heap = Ok h'
       /\ get_output_tensor 3%N h' = Ok 50%N
       /\ forall h'',
            run_calls pass_through_grad
              [call_add_consumer 3%N 4%N; call_grad 3%N 4%N 1%N 60%N false;
               call_cuda_exec_context 2 3%N (mkCtx 1 2 3)] h' = Ok h'' ->
            computed h'' 3%N = false.
Proof.
  split; [reflexivity|].
  destruct (reset_only_clears_flags pass_through_grad 3%N test_heap (inner [1%N; 2%N] 50%N))
    as (h' & o' & E & Ho' & _ & _ & Et & _ & _ & _ & _ & _ & _ & _ & _ & _ & _ & _ & _ & _ & Hrun).
  - intros t c v g h0 r h1 H. unfold pass_through_grad in H.
    apply Ok_inj in H. by inversion H.
  - reflexivity.
  - exists h'. split; [exact E|]. split.
    + unfold get_output_tensor. rewrite (load_Some _ _ _ Ho'). simpl. by rewrite Et.
    + intros h''. apply Hrun.
Defined.

(** C9. A [grad] call with [recompute = false] for a variable that has no
    cache entry hands the local gradient rule a store in which the node's
    cache has gained the key [var], mapped to null: every other key, every
    other member of the node, every other node and every tensor is as
    before, and the cache is one entry larger. *)
Theorem grad_miss_inserts_null_slot
  (_grad : N -> N -> N -> N -> Heap -> result (N * Heap))
  (this consumer var g : N) (h : Heap) (o : Operation) :
  ops h !! this = Some o ->
  _grad_cache o !! var = None ->
  exists h1 o1,
    grad _grad this consumer var g false h = _grad this consumer var g h1
    /\ ops h1 !! this = Some o1
    /\ _grad_cache o1 !! var = Some NULL
    /\ (forall k, k <> var -> _grad_cache o1 !! k = _grad_cache o !! k)
    /\ size (_grad_cache o1) = S (size (_grad_cache o))
    /\ o1 = with_grad_cache (_grad_cache o1) o
    /\ (forall q, q <> this -> ops h1 !! q = ops h !! q)
    /\ tensors h1 = tensors h.
Proof.
  intros Hthis Hmiss.
  exists (store this (with_grad_cache (<[var := NULL]> (_grad_cache o)) o) h),
         (with_grad_cache (<[var := NULL]> (_grad_cache o)) o).
  split.
  { unfold grad. simpl. rewrite (load_Some _ _ _ Hthis). simpl.
    unfold map_subscript. rewrite Hmiss. reflexivity. }
  split; [simpl; apply lookup_insert_eq|].
  split; [simpl; apply lookup_insert_eq|].
  split; [intros k Hk; simpl; by rewrite lookup_insert_ne|].
  split; [simpl; by apply map_size_insert_None|].
  split; [reflexivity|].
  split; [intros q Hq; simpl; by rewrite lookup_insert_ne | reflexivity].
Qed.

Lemma grad_miss_inserts_null_slot_witness :
  _grad_cache (inner [1%N; 2%N] 50%N) !! 7%N = None
  /\ (r ← grad pass_through_grad 3%N 4%N 7%N 60%N false test_heap;
      get_grad_tensor 3%N 7%N (snd r)) = Ok NULL.
Proof.
  split; [reflexivity|].
  destruct (grad_miss_inserts_null_slot pass_through_grad 3%N 4%N 7%N 60%N test_heap
              (inner [1%N; 2%N] 50%N))
    as (h1 & o1 & E & Ho1 & Hv & _); [reflexivity | reflexivity |].
  rewrite E. unfold pass_through_grad. simpl.
  unfold get_grad_tensor. rewrite (load_Some _ _ _ Ho1). simpl. by rewrite Hv.
Defined.

(** The loop of [get_output_size] from an arbitrary accumulator. *)
Lemma output_size_loop (l : list Z) : forall acc : Z,
  (fold_left (fun size d => (size * d) mod UINT_MOD) l (acc mod UINT_MOD)
   = (acc * shape_product l) mod UINT_MOD)%Z.
Proof.
  induction l as [|d l IH]; intros acc; simpl.
  - by rewrite Z.mul_1_r.
  - rewrite Z.mul_mod_idemp_l by (unfold UINT_MOD; lia).
    rewrite IH. f_equal. lia.
Qed.

Lemma shape_product_nonneg (l : list Z) :
  Forall (fun d => 0 <= d)%Z l -> (0 <= shape_product l)%Z.
Proof. induction 1; simpl; lia. Qed.

(** C10, as the code has it. [get_output_size] returns the product of the
    entries of the declared shape reduced modulo 2^32, the [unsigned int]
    arithmetic of the loop; that is the product itself whenever the
    product is below 2^32, and 1 for the empty shape. *)
Theorem get_output_size_product_mod (this : N) (h : Heap) (o : Operation) :
  ops h !! this = Some o ->
  get_output_size this h = Ok (shape_product (output_shape o) mod UINT_MOD)%Z
  /\ (output_shape o = [] -> get_output_size this h = Ok 1%Z)
  /\ (Forall (fun d => 0 <= d)%Z (output_shape o) ->
      (shape_product (output_shape o) < UINT_MOD)%Z ->
      get_output_size this h = Ok (shape_product (output_shape o))).
Proof.
  intros Hthis.
  assert (E : get_output_size this h = Ok (shape_product (output_shape o) mod UINT_MOD)%Z).
  { unfold get_output_size. rewrite (load_Some _ _ _ Hthis). simpl. f_equal.
    change 1%Z with (1 mod UINT_MOD)%Z at 1. rewrite output_size_loop. f_equal. lia. }
  split; [exact E|]. split.
  - intros Hs. rewrite E, Hs. reflexivity.
  - intros Hpos Hlt. rewrite E. f_equal. apply Z.mod_small.
    split; [by apply shape_product_nonneg | done].
Qed.

Lemma get_output_size_product_mod_witness :
  ops test_heap !! 1%N = Some (leaf true 51%N)
  /\ get_output_size 1%N test_heap = Ok 4%Z.
Proof.
  split; [reflexivity|].
  destruct (get_output_size_product_mod 1%N test_heap (leaf true 51%N)) as (_ & _ & H);
    [reflexivity|].
  apply H; [repeat constructor; lia | reflexivity].
Defined.

(** C10 as stated fails: for the shape 65536 x 65536 the product is 2^32
    and the loop returns 0. *)
Lemma get_output_size_overflows :
  get_output_size 1%N big_heap = Ok 0%Z
  /\ shape_product [65536; 65536]%Z = 4294967296%Z
  /\ get_output_size 1%N big_heap <> Ok (shape_product [65536; 65536]%Z).
Proof. split; [reflexivity|]. split; [reflexivity|]. discriminate. Qed.

(** C2, as the code has it. For a variable without a cache entry the base
    class raises nothing: [grad] with [recompute = true] is the local
    gradient rule on the unchanged store, and [grad] with
    [recompute = false] is the local gradient rule on the store with a null
    slot inserted for the variable; the caller gets whatever the rule
    returns, a null tensor included. *)
Theorem grad_unregistered_runs_local_rule
  (_grad : N -> N -> N -> N -> Heap -> result (N * Heap))
  (this consumer var g : N) (h : Heap) (o : Operation) :
  ops h !! this = Some o ->
  _grad_cache o !! var = None ->
  grad _grad this consumer var g true h = _grad this consumer var g h
  /\ grad _grad this consumer var g false h
     = _grad this consumer var g
         (store this (with_grad_cache (<[var := NULL]> (_grad_cache o)) o) h)
  /\ ((forall h0, _grad this consumer var g h0 <> Raise GradientTargetNotFound) ->
      forall recompute,
        grad _grad this consumer var g recompute h <> Raise GradientTargetNotFound).
Proof.
  intros Hthis Hmiss.
  assert (E1 : grad _grad this consumer var g true h = _grad this consumer var g h)
    by reflexivity.
  assert (E2 : grad _grad this consumer var g false h
               = _grad this consumer var g
                   (store this (with_grad_cache (<[var := NULL]> (_grad_cache o)) o) h)).
  { unfold grad. simpl. rewrite (load_Some _ _ _ Hthis). simpl.
    unfold map_subscript. rewrite Hmiss. reflexivity. }
  split; [exact E1|]. split; [exact E2|].
  intros Hrule [|]; [rewrite E1 | rewrite E2]; apply Hrule.
Qed.

Lemma grad_unregistered_runs_local_rule_witness :
  _grad_cache (inner [1%N; 2%N] 50%N) !! 7%N = None
  /\ grad pass_through_grad 3%N 4%N 7%N 60%N true test_heap = Ok (60%N, test_heap).
Proof.
  split; [reflexivity|].
  destruct (grad_unregistered_runs_local_rule pass_through_grad 3%N 4%N 7%N 60%N test_heap
              (inner [1%N; 2%N] 50%N)) as (E & _); [reflexivity | reflexivity |].
  rewrite E. reflexivity.
Defined.

(** C2 as stated fails: a node built over the single input 1 is asked for
    the gradient with respect to node 2, which it never registered.  Both
    forms of [grad] return the null tensor the local rule hands back, and
    the cache lookup reads past the end of the map; nothing raises
    [GradientTargetNotFound]. *)
Lemma grad_unregistered_returns_null :
  (h ← Operation_ctor true 11%N 12%N 2 4%N raw_storage [1%N] true test_heap;
   r ← grad pass_through_grad 4%N 5%N 2%N NULL true h; Ok (fst r)) = Ok NULL
  /\ (h ← Operation_ctor true 11%N 12%N 2 4%N raw_storage [1%N] true test_heap;
      r ← grad pass_through_grad 4%N 5%N 2%N NULL false h; Ok (fst r)) = Ok NULL
  /\ (h ← Operation_ctor true 11%N 12%N 2 4%N raw_storage [1%N] true test_heap;
      get_grad_tensor 4%N 2%N h) = Undefined
  /\ (h ← Operation_ctor true 11%N 12%N 2 4%N raw_storage [1%N] true test_heap;
      r ← grad pass_through_grad 4%N 5%N 2%N NULL false h; Ok (fst r))
     <> Raise GradientTargetNotFound.
Proof.
  split; [vm_compute; reflexivity|]. split; [vm_compute; reflexivity|].
  split; [vm_compute; reflexivity|]. vm_compute. discriminate.
Qed.

(** C3, as the code has it. Building a node at a fresh address over live
    inputs returns; the new node is appended to the consumer list of every
    input, once per occurrence of the input, when the new node's own
    [needs_grad] is true, and is appended nowhere otherwise; the new node's
    gradient cache holds a null slot for every input and for no other key.
    The inputs' own [needs_grad] flags play no part. *)
Theorem ctor_registers_every_input
  (cuda : bool) (c1 c2 : N) (n : nat) (this : N) (raw : Operation) (ins : list N)
  (ng : bool) (h : Heap) :
  ops h !! this = None ->
  forallb (wf_at n h) ins = true ->
  exists h' o', Operation_ctor cuda c1 c2 (S n) this raw ins ng h = Ok h'
    /\ ops h' !! this = Some o'
    /\ (forall q o, ops h !! q = Some o ->
          exists oq, ops h' !! q = Some oq
            /\ consumers oq
               = consumers o
                 ++ (if ng then replicate (count_occ N.eq_dec ins q) this else []))
    /\ (forall k, _grad_cache o' !! k = if decide (k ∈ ins) then Some NULL else None)
    /\ dom (_grad_cache o') = list_to_set ins.
Proof.
  intros Hfresh Hins.
  destruct (Operation_ctor_spec cuda c1 c2 n this raw ins ng h Hfresh Hins)
    as (h' & E & (o' & Ho' & _ & _ & _ & _ & Hcache) & Hothers & _).
  exists h', o'. split; [exact E|]. split; [exact Ho'|]. split; [|split].
  - intros q o Hq. destruct (Hothers q o Hq) as (oq & Hoq & Hc & _). eauto.
  - exact Hcache.
  - apply set_eq. intros k. rewrite elem_of_dom, Hcache, elem_of_list_to_set.
    case_decide; split; intros H'; try done; try (by destruct H'); eauto.
Qed.

Lemma ctor_registers_every_input_witness :
  ops test_heap !! 4%N = None
  /\ forallb (wf_at 1 test_heap) [2%N] = true
  /\ (h ← Operation_ctor true 11%N 12%N 2 4%N raw_storage [2%N] true test_heap;
      get_consumers 2%N h) = Ok [4%N].
Proof.
  split; [reflexivity|]. split; [reflexivity|].
  destruct (ctor_registers_every_input true 11%N 12%N 1 4%N raw_storage [2%N] true test_heap)
    as (h' & o' & E & _ & Hc & _); [reflexivity | reflexivity |].
  rewrite E. simpl.
  destruct (Hc 2%N (leaf false NULL)) as (oq & Hq & Ec); [reflexivity|].
  unfold get_consumers. rewrite (load_Some _ _ _ Hq). simpl. rewrite Ec. reflexivity.
Defined.

(** C3 as stated fails.  Node 2 does not require gradient, yet a node built
    over it with [needs_grad = true] is put in its consumer list and gets a
    cache slot for it; node 1 requires gradient, yet a node built over it
    with [needs_grad = false] is not put in its consumer list. *)
Lemma ctor_ignores_input_needs_grad :
  get_consumers 2%N test_heap = Ok []
  /\ needs_grad (leaf false NULL) = false
  /\ (h ← Operation_ctor true 11%N 12%N 2 4%N raw_storage [2%N] true test_heap;
      get_consumers 2%N h) = Ok [4%N]
  /\ (h ← Operation_ctor true 11%N 12%N 2 4%N raw_storage [2%N] true test_heap;
      get_grad_tensor 4%N 2%N h) = Ok NULL
  /\ needs_grad (leaf true 51%N) = true
  /\ (h ← Operation_ctor true 11%N 12%N 2 4%N raw_storage [1%N] false test_heap;
      get_consumers 1%N h) = Ok [].
Proof. repeat split; vm_compute; reflexivity. Qed.




(** C8, as the code has it. The consumers of a node are a sequence:
    [add_consumer] appends its argument and touches nothing else, so
    registering the same consumer twice leaves two entries; and building a
    node with [needs_grad = true] over an input list appends the new node
    to an input's consumers as many times as the input occurs in the list. *)
Theorem add_consumer_appends (this c : N) (h : Heap) (o : Operation) :
  ops h !! this = Some o ->
  exists h1 h2,
    add_consumer this c h = Ok h1
    /\ get_consumers this h1 = Ok (consumers o ++ [c])
    /\ ops h1 !! this = Some (with_consumers (consumers o ++ [c]) o)
    /\ (forall q, q <> this -> ops h1 !! q = ops h !! q)
    /\ tensors h1 = tensors h
    /\ add_consumer this c h1 = Ok h2
    /\ get_consumers this h2 = Ok (consumers o ++ [c; c])
    /\ (forall cuda c1 c2 n raw (ins : list N),
          ops h !! c = None -> forallb (wf_at n h) ins = true ->
          exists h', Operation_ctor cuda c1 c2 (S n) c raw ins true h = Ok h'
            /\ get_consumers this h'
               = Ok (consumers o ++ replicate (count_occ N.eq_dec ins this) c)).
Proof.
  intros Hthis.
  set (o1 := with_consumers (consumers o ++ [c]) o).
  set (o2 := with_consumers (consumers o1 ++ [c]) o1).
  exists (store this o1 h), (store this o2 (store this o1 h)).
  assert (L1 : ops (store this o1 h) !! this = Some o1) by (simpl; apply lookup_insert_eq).
  split; [unfold add_consumer; by rewrite (load_Some _ _ _ Hthis)|].
  split; [unfold get_consumers; by rewrite (load_Some _ _ _ L1)|].
  split; [exact L1|].
  split; [intros q Hq; simpl; by rewrite lookup_insert_ne|].
  split; [reflexivity|].
  split; [unfold add_consumer; by rewrite (load_Some _ _ _ L1)|].
  split.
  { unfold get_consumers, load. simpl. rewrite lookup_insert_eq. simpl.
    by rewrite <- app_assoc. }
  intros cuda c1 c2 n raw ins Hfresh Hins.
  destruct (Operation_ctor_spec cuda c1 c2 n c raw ins true h Hfresh Hins)
    as (h' & E & _ & Hothers & _).
  exists h'. split; [exact E|].
  destruct (Hothers this o Hthis) as (o' & Ho' & Ec & _).
  unfold get_consumers. rewrite (load_Some _ _ _ Ho'). simpl. by rewrite Ec.
Qed.

Lemma add_consumer_appends_witness :
  ops test_heap !! 1%N = Some (leaf true 51%N)
  /\ (h1 ← add_consumer 1%N 3%N test_heap; get_consumers 1%N h1) = Ok [3%N].
Proof.
  split; [reflexivity|].
  destruct (add_consumer_appends 1%N 3%N test_heap (leaf true 51%N))
    as (h1 & h2 & E1 & G1 & _); [reflexivity|].
  rewrite E1. simpl. exact G1.
Defined.

(** C8 as stated fails: registering consumer 3 twice on node 1 leaves two
    entries, and so does building node 4 over the input list [1; 1]. *)
Lemma consumers_keep_duplicates :
  (h1 ← add_consumer 1%N 3%N test_heap; h2 ← add_consumer 1%N 3%N h1;
   get_consumers 1%N h2) = Ok [3%N; 3%N]
  /\ (h ← Operation_ctor true 11%N 12%N 2 4%N raw_storage [1%N; 1%N] true test_heap;
      get_consumers 1%N h) = Ok [4%N; 4%N]
  /\ ~ NoDup [3%N; 3%N].
Proof.
  split; [vm_compute; reflexivity|]. split; [vm_compute; reflexivity|].
  intros H. apply NoDup_cons in H as [H _]. apply H. apply elem_of_cons; auto.
Qed.

(** C5. On a graph whose pointers are live and whose depth below [this] is
    within the fuel, [cuda_exec_context] returns, and afterwards every node
    reachable from [this] through input edges reports the stream, the
    cuBLAS handle and the cuDNN handle of the context.  Applying a second
    context afterwards returns too, and every reachable node then reports
    the three values of the second context, none of the first. *)
Theorem cuda_exec_context_consistent
  (n : nat) (this : N) (ctx1 ctx2 : CudaExecContext) (h : Heap) :
  wf_at n h this = true ->
  exists h1 h2,
    cuda_exec_context n this ctx1 h = Ok h1
    /\ cuda_exec_context n this ctx2 h1 = Ok h2
    /\ forall q, reach h this q ->
         (get_custream q h1 = Ok (stream ctx1)
          /\ get_cublas_handle q h1 = Ok (cublas_handle ctx1)
          /\ get_cudnn_handle q h1 = Ok (cudnn_handle ctx1))
         /\ (get_custream q h2 = Ok (stream ctx2)
             /\ get_cublas_handle q h2 = Ok (cublas_handle ctx2)
             /\ get_cudnn_handle q h2 = Ok (cudnn_handle ctx2)).
Proof.
  intros Hwf.
  destruct (cuda_exec_context_spec n this ctx1 h Hwf) as (h1 & E1 & R1 & P1).
  pose proof (wf_at_frame _ _ _ _ R1 Hwf) as Hwf1.
  destruct (cuda_exec_context_spec n this ctx2 h1 Hwf1) as (h2 & E2 & R2 & P2).
  exists h1, h2. split; [exact E1|]. split; [exact E2|].
  intros q Hq.
  destruct (P1 q Hq) as ((o1 & Ho1 & S1) & (o1' & Ho1' & C1) & (o1'' & Ho1'' & D1) & _).
  destruct (P2 q (reach_frame _ _ _ _ R1 Hq))
    as ((o2 & Ho2 & S2) & (o2' & Ho2' & C2) & (o2'' & Ho2'' & D2) & _).
  assert (o1' = o1) as -> by congruence. assert (o1'' = o1) as -> by congruence.
  assert (o2' = o2) as -> by congruence. assert (o2'' = o2) as -> by congruence.
  unfold get_custream, get_cublas_handle, get_cudnn_handle.
  rewrite (load_Some _ _ _ Ho1), (load_Some _ _ _ Ho2). simpl.
  by rewrite S1, C1, D1, S2, C2, D2.
Qed.

Lemma cuda_exec_context_consistent_witness :
  wf_at 2 test_heap 3%N = true
  /\ (h1 ← cuda_exec_context 2 3%N (mkCtx 1 2 3) test_heap;
      h2 ← cuda_exec_context 2 3%N (mkCtx 4 5 6) h1;
      get_cudnn_handle 2%N h2) = Ok 6%N.
Proof.
  split; [reflexivity|].
  destruct (cuda_exec_context_consistent 2 3%N (mkCtx 1 2 3) (mkCtx 4 5 6) test_heap)
    as (h1 & h2 & E1 & E2 & H); [reflexivity|].
  rewrite E1. simpl. rewrite E2. simpl.
  apply (H 2%N).
  eapply reach_step; [reflexivity | | apply reach_refl].
  apply elem_of_cons. right. apply elem_of_cons. by left.
Defined.

(** C6, as the code has it. When [cuda_exec_context] is applied to a node
    with a cached output tensor, the call returns and the tensor afterwards
    carries the stream and the cuBLAS handle of the context; its cuDNN
    handle is the one it had before, since [set_cudnn_handle] writes the
    nodes only. *)
Theorem cuda_exec_context_updates_tensor
  (n : nat) (this : N) (ctx : CudaExecContext) (h : Heap) (o : Operation) (t : Tensor) :
  wf_at n h this = true ->
  ops h !! this = Some o ->
  output_tensor o <> NULL ->
  tensors h !! output_tensor o = Some t ->
  exists h' t',
    cuda_exec_context n this ctx h = Ok h'
    /\ get_output_tensor this h' = Ok (output_tensor o)
    /\ tensors h' !! output_tensor o = Some t'
    /\ t_custream t' = stream ctx
    /\ t_cublas_handle t' = cublas_handle ctx
    /\ t_cudnn_handle t' = t_cudnn_handle t.
Proof.
  intros Hwf Hthis Hn Ht.
  destruct (cuda_exec_context_spec n this ctx h Hwf) as (h' & E & R & P).
  destruct (P this (reach_refl _ _)) as (_ & _ & _ & T1 & T2).
  destruct (ctx_frame_op _ _ _ _ R Hthis) as (o' & Ho' & S).
  destruct S as (_ & _ & _ & _ & _ & _ & Eo & _).
  rewrite <- Eo in Hn.
  destruct (T1 o' Ho' Hn) as (t1 & Ht1 & S1).
  destruct (T2 o' Ho' Hn) as (t2 & Ht2 & S2).
  assert (t2 = t1) as -> by congruence.
  destruct (ctx_frame_tensor _ _ _ _ R Ht) as (t' & Ht' & D).
  rewrite Eo in Ht1. assert (t' = t1) as -> by congruence.
  exists h', t1. split; [exact E|]. split.
  { unfold get_output_tensor. rewrite (load_Some _ _ _ Ho'). simpl. by rewrite Eo. }
  done.
Qed.

Lemma cuda_exec_context_updates_tensor_witness :
  wf_at 2 test_heap 3%N = true
  /\ (h' ← cuda_exec_context 2 3%N (mkCtx 1 2 3) test_heap;
      t ← load_tensor 50%N h'; Ok (t_custream t, t_cublas_handle t)) = Ok (1%N, 2%N).
Proof.
  split; [reflexivity|].
  destruct (cuda_exec_context_updates_tensor 2 3%N (mkCtx 1 2 3) test_heap
              (inner [1%N; 2%N] 50%N) (mkTensor 0 0 0))
    as (h' & t' & E & _ & Ht & S & C & _); [reflexivity | reflexivity | discriminate | reflexivity |].
  rewrite E. simpl. unfold load_tensor. simpl in Ht. rewrite Ht. simpl.
  simpl in S, C. by rewrite S, C.
Defined.

(** C6 as stated fails: after [cuda_exec_context] with the context (1, 2, 3)
    the cached output tensor of node 3 has the stream 1 and the cuBLAS
    handle 2, but its cuDNN handle is still 0, not 3. *)
Lemma cuda_exec_context_skips_tensor_cudnn :
  get_output_tensor 3%N test_heap = Ok 50%N
  /\ (h' ← cuda_exec_context 2 3%N (mkCtx 1 2 3) test_heap; load_tensor 50%N h')
     = Ok (mkTensor 1 2 0)
  /\ t_cudnn_handle (mkTensor 1 2 0) <> cudnn_handle (mkCtx 1 2 3).
Proof. split; [reflexivity|]. split; [vm_compute; reflexivity|]. discriminate. Qed.

(** * Further properties of the header *)

(** ** Destruction *)

Lemma for_each_app f l1 l2 h :
  for_each f (l1 ++ l2) h = (h' ← for_each f l1 h; for_each f l2 h').
Proof.
  revert h. induction l1 as [|i l1 IH]; intros h; simpl; [done|].
  destruct (f i h) as [h1| | |]; simpl; auto.
Qed.

Lemma collect_Some f i l D :
  collect f (i :: l) = Some D ->
  exists Di D', f i = Some Di /\ collect f l = Some D' /\ Di ## D' /\ D = Di ∪ D'.
Proof.
  simpl. destruct (f i) as [Di|]; [|done]. destruct (collect f l) as [D'|]; [|done].
  case_bool_decide; [|done]. intros [= <-]. eauto 10.
Qed.

Lemma collect_intro f i l Di D' :
  f i = Some Di -> collect f l = Some D' -> Di ## D' ->
  collect f (i :: l) = Some (Di ∪ D').
Proof. intros Hi Hl Hd. simpl. rewrite Hi, Hl. by rewrite bool_decide_eq_true_2. Qed.

Lemma collect_sub f l : forall D i,
  collect f l = Some D -> i ∈ l -> exists Di, f i = Some Di /\ Di ⊆ D.
Proof.
  induction l as [|j l IH]; intros D i H Hi; [by apply elem_of_nil in Hi|].
  apply collect_Some in H as (Dj & D' & Hj & Hl & Hd & ->).
  apply elem_of_cons in Hi as [->|Hi].
  - exists Dj. split; [done | set_solver].
  - destruct (IH D' i Hl Hi) as (Di & Hfi & Hsub). exists Di. split; [done | set_solver].
Qed.

Lemma collect_elem f l : forall D q,
  collect f l = Some D -> q ∈ D -> exists i Di, i ∈ l /\ f i = Some Di /\ q ∈ Di.
Proof.
  induction l as [|j l IH]; intros D q H Hq.
  - simpl in H. injection H as <-. set_solver.
  - apply collect_Some in H as (Dj & D' & Hj & Hl & Hd & ->).
    apply elem_of_union in Hq as [Hq|Hq].
    + exists j, Dj. split; [apply elem_of_cons; auto | done].
    + destruct (IH D' q Hl Hq) as (i & Di & Hi & Hfi & Hqi).
      exists i, Di. split; [apply elem_of_cons; auto | done].
Qed.

Lemma collect_ext_in f g l : forall D,
  (forall i Di, i ∈ l -> f i = Some Di -> g i = Some Di) ->
  collect f l = Some D -> collect g l = Some D.
Proof.
  induction l as [|j l IH]; intros D Hfg H; [done|].
  apply collect_Some in H as (Dj & D' & Hj & Hl & Hd & ->).
  apply collect_intro; [|apply IH|]; try done.
  - apply Hfg; [apply elem_of_cons; auto | done].
  - intros i Di Hi. apply Hfg. apply elem_of_cons; auto.
Qed.

(** Sets below two different positions of the list are disjoint. *)
Lemma collect_disjoint f (l : list N) : forall D (i j : nat) a b Da Db,
  collect f l = Some D -> l !! i = Some a -> l !! j = Some b -> i <> j ->
  f a = Some Da -> f b = Some Db -> Da ## Db.
Proof.
  induction l as [|k l IH]; intros D i j a b Da Db H Hi Hj Hne Ha Hb; [done|].
  apply collect_Some in H as (Dk & D' & Hk & Hl & Hd & ->).
  destruct i as [|i], j as [|j]; simpl in Hi, Hj.
  - done.
  - injection Hi as ->. assert (Dk = Da) as -> by congruence.
    destruct (collect_sub f l D' b Hl) as (Db' & Hb' & Hsub).
    { eapply list_elem_of_lookup_2; eauto. }
    assert (Db' = Db) as -> by congruence. set_solver.
  - injection Hj as ->. assert (Dk = Db) as -> by congruence.
    destruct (collect_sub f l D' a Hl) as (Da' & Ha' & Hsub).
    { eapply list_elem_of_lookup_2; eauto. }
    assert (Da' = Da) as -> by congruence. set_solver.
  - eapply (IH D' i j); eauto.
Qed.

Lemma subtree_null n h : subtree n h NULL = Some ∅.
Proof. by destruct n. Qed.

Lemma subtree_node n h p D :
  p <> NULL -> subtree n h p = Some D ->
  exists n' o D', n = S n' /\ ops h !! p = Some o
    /\ collect (subtree n' h) (inputs o) = Some D' /\ (p ∉ D') /\ D = {[p]} ∪ D'.
Proof.
  intros Hp H. apply N.eqb_neq in Hp. destruct n as [|n']; simpl in H; rewrite Hp in H; [done|].
  destruct (ops h !! p) as [o|]; [|done].
  destruct (collect _ _) as [D'|] eqn:Hc; [|done].
  case_bool_decide; [done|]. injection H as <-. eauto 10.
Qed.

Lemma subtree_intro n h p o D' :
  p <> NULL -> ops h !! p = Some o ->
  collect (subtree n h) (inputs o) = Some D' -> p ∉ D' ->
  subtree (S n) h p = Some ({[p]} ∪ D').
Proof.
  intros Hp Ho Hc Hn. apply N.eqb_neq in Hp. simpl. rewrite Hp, Ho, Hc.
  by rewrite bool_decide_eq_false_2.
Qed.

(** Every node of the set is a live node, never the null pointer. *)
Lemma subtree_live n : forall h p D q,
  subtree n h p = Some D -> q ∈ D -> is_Some (ops h !! q) /\ q <> NULL.
Proof.
  induction n as [|n IH]; intros h p D q H Hq.
  - destruct (decide (p = NULL)) as [->|Hp].
    + rewrite subtree_null in H. injection H as <-. set_solver.
    + by destruct (subtree_node _ _ _ _ Hp H) as (n' & ? & ? & ? & _).
  - destruct (decide (p = NULL)) as [->|Hp].
    + rewrite subtree_null in H. injection H as <-. set_solver.
    + destruct (subtree_node _ _ _ _ Hp H) as (n' & o & D' & [= <-] & Ho & Hc & Hn & ->).
      apply elem_of_union in Hq as [Hq|Hq].
      * apply elem_of_singleton in Hq as ->. eauto.
      * destruct (collect_elem _ _ _ _ Hc Hq) as (i & Di & _ & Hi & Hqi). eauto.
Qed.

(** The set depends on the nodes in it only. *)
Lemma subtree_local n : forall h h1 p D,
  subtree n h p = Some D ->
  (forall q, q ∈ D -> ops h1 !! q = ops h !! q) ->
  subtree n h1 p = Some D.
Proof.
  induction n as [|n IH]; intros h h1 p D H Hsame.
  - destruct (decide (p = NULL)) as [->|Hp]; [by rewrite subtree_null in *|].
    by destruct (subtree_node _ _ _ _ Hp H) as (n' & ? & ? & ? & _).
  - destruct (decide (p = NULL)) as [->|Hp]; [by rewrite subtree_null in *|].
    destruct (subtree_node _ _ _ _ Hp H) as (n' & o & D' & [= <-] & Ho & Hc & Hn & ->).
    apply (subtree_intro n h1 p o D'); try done.
    + rewrite Hsame; [done | set_solver].
    + eapply collect_ext_in; [|exact Hc]. intros i Di Hi Hsi.
      destruct (collect_sub _ _ _ _ Hc Hi) as (Di' & Hsi' & Hsub).
      assert (Di' = Di) as -> by congruence.
      eapply IH; [exact Hsi|]. intros q Hq. apply Hsame. set_solver.
Qed.

Lemma if_union_None {A} (D1 D2 : gset N) (q : N) (x : option A) :
  (if decide (q ∈ D2) then None else if decide (q ∈ D1) then None else x)
  = if decide (q ∈ D1 ∪ D2) then None else x.
Proof.
  destruct (decide (q ∈ D2)), (decide (q ∈ D1)), (decide (q ∈ D1 ∪ D2));
    first [reflexivity | exfalso; rewrite elem_of_union in *; tauto].
Qed.
Lemma if_add_None {A} (D : gset N) (p q : N) (x : option A) : q <> p ->
  (if decide (q ∈ D) then None else x) = if decide (q ∈ {[p]} ∪ D) then None else x.
Proof.
  intros Hq.
  destruct (decide (q ∈ D)), (decide (q ∈ {[p]} ∪ D));
    first [reflexivity | exfalso; rewrite elem_of_union, elem_of_singleton in *; tauto].
Qed.

Lemma delete_inputs_spec n :
  (forall p h D, subtree n h p = Some D ->
     exists h', delete_Operation n p h = Ok h' /\ deleted D h h') ->
  forall l h D, collect (subtree n h) l = Some D ->
    exists h', for_each (delete_Operation n) l h = Ok h' /\ deleted D h h'.
Proof.
  intros IH. induction l as [|i l IHl]; intros h D H.
  - simpl in H. injection H as <-. exists h. split; [done|]. split; [done|].
    intros q. by rewrite decide_False by set_solver.
  - apply collect_Some in H as (Di & D' & Hi & Hl & Hd & ->).
    destruct (IH _ _ _ Hi) as (h1 & E1 & T1 & C1).
    destruct (IHl h1 D') as (h2 & E2 & T2 & C2).
    { eapply collect_ext_in; [|exact Hl]. intros j Dj Hj Hsj.
      destruct (collect_sub _ _ _ _ Hl Hj) as (Dj' & Hsj' & Hsub).
      assert (Dj' = Dj) as -> by congruence.
      eapply subtree_local; [exact Hsj|]. intros q Hq. rewrite C1.
      rewrite decide_False; [done | set_solver]. }
    exists h2. simpl. rewrite E1. simpl. split; [exact E2|]. split; [congruence|].
    intros q. rewrite C2, C1. apply if_union_None.
Qed.

Lemma delete_spec n : forall p h D,
  subtree n h p = Some D ->
  exists h', delete_Operation n p h = Ok h' /\ deleted D h h'.
Proof.
  induction n as [|n IH]; intros p h D H.
  - destruct (decide (p = NULL)) as [->|Hp].
    + rewrite subtree_null in H. injection H as <-. exists h. split; [done|].
      split; [done|]. intros q. by rewrite decide_False by set_solver.
    + by destruct (subtree_node _ _ _ _ Hp H) as (n' & ? & ? & ? & _).
  - destruct (decide (p = NULL)) as [->|Hp].
    + rewrite subtree_null in H. injection H as <-. exists h. split; [done|].
      split; [done|]. intros q. by rewrite decide_False by set_solver.
    + destruct (subtree_node _ _ _ _ Hp H) as (n' & o & D' & [= <-] & Ho & Hc & Hn & ->).
      destruct (delete_inputs_spec n IH _ _ _ Hc) as (h1 & E1 & T1 & C1).
      assert (Hp1 : ops h1 !! p = Some o) by (rewrite C1; by rewrite decide_False).
      exists (free_op p h1). split.
      * simpl. apply N.eqb_neq in Hp. rewrite Hp. rewrite (load_Some _ _ _ Ho). simpl.
        rewrite E1. simpl. by rewrite (load_Some _ _ _ Hp1).
      * split; [exact T1|]. intros q. simpl.
        destruct (decide (q = p)) as [->|Hq].
        -- rewrite lookup_delete_eq. rewrite decide_True; [done | set_solver].
        -- rewrite lookup_delete_ne by done. rewrite C1. by apply if_add_None.
Qed.

(** A deletion that returns has deleted a tree. *)
Lemma delete_inputs_only_trees n :
  (forall p h h', delete_Operation n p h = Ok h' -> exists D, subtree n h p = Some D) ->
  forall l h h', for_each (delete_Operation n) l h = Ok h' ->
    exists D, collect (subtree n h) l = Some D.
Proof.
  intros IH. induction l as [|i l IHl]; intros h h' H; [by exists ∅|].
  simpl in H. inv_bind H. rename x into ha.
  destruct (IH _ _ _ Ha) as (Di & Hi).
  destruct (delete_spec _ _ _ _ Hi) as (ha' & Ea & _ & Ca).
  assert (ha' = ha) as -> by congruence.
  destruct (IHl _ _ Hb) as (D' & Hl).
  assert (Hback : forall j Dj, subtree n ha j = Some Dj -> subtree n h j = Some Dj).
  { intros j Dj Hj. eapply subtree_local; [exact Hj|]. intros q Hq.
    destruct (subtree_live _ _ _ _ _ Hj Hq) as ([o Ho] & _).
    rewrite Ca in Ho |- *. by destruct (decide (q ∈ Di)). }
  exists (Di ∪ D'). apply collect_intro; [done | |].
  - eapply collect_ext_in; [|exact Hl]. intros j Dj _. apply Hback.
  - apply elem_of_disjoint. intros q Hqi Hq'.
    destruct (collect_elem _ _ _ _ Hl Hq') as (j & Dj & _ & Hj & Hqj).
    destruct (subtree_live _ _ _ _ _ Hj Hqj) as ([o Ho] & _).
    rewrite Ca in Ho. by rewrite decide_True in Ho.
Qed.

Lemma delete_only_trees n : forall p h h',
  delete_Operation n p h = Ok h' -> exists D, subtree n h p = Some D.
Proof.
  induction n as [|n IH]; intros p h h' H.
  - destruct (decide (p = NULL)) as [->|Hp]; [exists ∅; apply subtree_null|].
    simpl in H. apply N.eqb_neq in Hp. by rewrite Hp in H.
  - destruct (decide (p = NULL)) as [->|Hp]; [exists ∅; apply subtree_null|].
    simpl in H. pose proof Hp as Hp'. apply N.eqb_neq in Hp'. rewrite Hp' in H.
    inv_bind H. inv_bind Hb. inv_bind Hbb. rename x into o, x0 into h1.
    apply load_Ok in Ha, Hbba.
    destruct (delete_inputs_only_trees n IH _ _ _ Hba) as (D' & Hc).
    destruct (delete_inputs_spec n (delete_spec n) _ _ _ Hc) as (h1' & E1 & _ & C1).
    assert (h1' = h1) as -> by congruence.
    exists ({[p]} ∪ D'). apply (subtree_intro n h p o D'); try done.
    intros Hin. rewrite C1 in Hbba. by rewrite decide_True in Hbba.
Qed.

(** The set of a tree is what the input edges reach. *)
Lemma subtree_reach n : forall h p D q,
  subtree n h p = Some D -> q ∈ D -> reach h p q.
Proof.
  induction n as [|n IH]; intros h p D q H Hq;
    (destruct (decide (p = NULL)) as [->|Hp];
     [rewrite subtree_null in H; injection H as <-; by apply not_elem_of_empty in Hq|]);
    destruct (subtree_node _ _ _ _ Hp H) as (n' & o & D' & Hn & Ho & Hc & _ & ->);
    [done|]. injection Hn as <-.
  apply elem_of_union in Hq as [Hq|Hq].
  - apply elem_of_singleton in Hq as ->. constructor.
  - destruct (collect_elem _ _ _ _ Hc Hq) as (i & Di & Hi & Hsi & Hqi).
    eapply reach_step; eauto.
Qed.

Lemma reach_subtree h p q :
  reach h p q -> ops h !! NULL = None -> q <> NULL ->
  forall n D, subtree n h p = Some D -> q ∈ D.
Proof.
  intros Hr Hnull Hq. induction Hr as [p|p o i q Hp Hi Hr IH]; intros n D H.
  - destruct (subtree_node _ _ _ _ Hq H) as (_ & _ & D' & _ & _ & _ & _ & ->).
    apply elem_of_union_l. by apply elem_of_singleton.
  - assert (Hpn : p <> NULL) by (intros ->; congruence).
    destruct (subtree_node _ _ _ _ Hpn H) as (n' & o' & D' & _ & Ho' & Hc & _ & ->).
    assert (o' = o) as -> by congruence.
    destruct (collect_sub _ _ _ _ Hc Hi) as (Di & Hsi & Hsub).
    apply elem_of_union_r. apply Hsub. by eapply IH.
Qed.

Lemma subtree_descend h p r :
  reach h p r -> ops h !! NULL = None -> r <> NULL ->
  forall n D, subtree n h p = Some D -> exists n' D', subtree n' h r = Some D'.
Proof.
  intros Hr Hnull Hrn. induction Hr as [p|p o i q Hp Hi Hr IH]; intros n D H; [eauto|].
  assert (Hpn : p <> NULL) by (intros ->; congruence).
  destruct (subtree_node _ _ _ _ Hpn H) as (n' & o' & D' & _ & Ho' & Hc & _ & _).
  assert (o' = o) as -> by congruence.
  destruct (collect_sub _ _ _ _ Hc Hi) as (Di & Hsi & _). by eapply IH.
Qed.

(** X1. When the input edges below [p] form a tree of live nodes within
    the fuel, [delete p] returns; it has released every node the input
    edges reach from [p] and nothing else: every other node is exactly as
    it was (a consumer list that mentions a released node still does), and
    no tensor is released, the cached output tensors of the released nodes
    included. *)
Theorem delete_frees_exactly_the_tree (n : nat) (p : N) (h : Heap) (D : gset N) :
  subtree n h p = Some D ->
  ops h !! NULL = None ->
  exists h', delete_Operation n p h = Ok h'
    /\ tensors h' = tensors h
    /\ (forall q, q <> NULL -> reach h p q -> ops h' !! q = None)
    /\ (forall q, ~ reach h p q -> ops h' !! q = ops h !! q)
    /\ (forall q, q ∈ D <-> q <> NULL /\ reach h p q).
Proof.
  intros H Hnull. destruct (delete_spec _ _ _ _ H) as (h' & E & T & C).
  exists h'. split; [exact E|]. split; [exact T|]. split; [|split].
  - intros q Hq Hr. rewrite C. rewrite decide_True; [done|].
    by eapply reach_subtree.
  - intros q Hr. rewrite C. rewrite decide_False; [done|].
    intros Hin. apply Hr. by eapply subtree_reach.
  - intros q. split.
    + intros Hin. split; [by eapply subtree_live | by eapply subtree_reach].
    + intros [Hq Hr]. by eapply reach_subtree.
Qed.

Lemma delete_frees_exactly_the_tree_witness :
  subtree 2 test_heap 3%N = Some ({[3%N]} ∪ ({[1%N]} ∪ ({[2%N]} ∪ ∅)))
  /\ exists h', delete_Operation 2 3%N test_heap = Ok h'
       /\ tensors h' = tensors test_heap /\ ops h' !! 1%N = None.
Proof.
  split; [vm_compute; reflexivity|].
  destruct (delete_frees_exactly_the_tree 2 3%N test_heap
              ({[3%N]} ∪ ({[1%N]} ∪ ({[2%N]} ∪ ∅))))
    as (h' & E & T & Hgone & _); [vm_compute; reflexivity | reflexivity |].
  exists h'. split; [exact E|]. split; [exact T|].
  apply Hgone; [discriminate|].
  eapply reach_step; [reflexivity | | apply reach_refl]. apply elem_of_cons. by left.
Defined.

(** X2. Shared ownership is never deleted cleanly.  If some node reachable
    from [p] has two different input positions from which one and the same
    node [x] can be reached (the same input listed twice, or a
    sub-expression used by two inputs), then [delete p] does not return
    normally, whatever the fuel: the second deletion of [x] finds its
    storage gone. *)
Theorem delete_shared_never_returns
  (p r a b x : N) (i j : nat) (o : Operation) (h : Heap) :
  ops h !! NULL = None ->
  reach h p r ->
  ops h !! r = Some o ->
  inputs o !! i = Some a -> inputs o !! j = Some b -> i <> j ->
  reach h a x -> reach h b x -> x <> NULL ->
  forall fuel h', delete_Operation fuel p h <> Ok h'.
Proof.
  intros Hnull Hpr Hr Hi Hj Hij Hax Hbx Hx fuel h' E.
  destruct (delete_only_trees _ _ _ _ E) as (D & HD).
  assert (Hrn : r <> NULL) by (intros ->; congruence).
  destruct (subtree_descend _ _ _ Hpr Hnull Hrn _ _ HD) as (n' & D' & Hr').
  destruct (subtree_node _ _ _ _ Hrn Hr') as (n'' & o' & D'' & _ & Ho' & Hc & _ & _).
  assert (o' = o) as -> by congruence.
  destruct (collect_sub _ _ _ _ Hc (list_elem_of_lookup_2 _ _ _ Hi)) as (Da & Ha & _).
  destruct (collect_sub _ _ _ _ Hc (list_elem_of_lookup_2 _ _ _ Hj)) as (Db & Hb & _).
  pose proof (collect_disjoint _ _ _ _ _ _ _ _ _ Hc Hi Hj Hij Ha Hb) as Hd.
  apply (proj1 (elem_of_disjoint _ _) Hd x);
    [eapply (reach_subtree h a x) | eapply (reach_subtree h b x)]; eauto.
Qed.

Lemma delete_shared_never_returns_witness :
  ops shared_heap !! 5%N = Some (inner [4%N; 1%N] NULL)
  /\ forall h', delete_Operation 5 5%N shared_heap <> Ok h'.
Proof.
  split; [reflexivity|].
  apply (delete_shared_never_returns 5%N 5%N 4%N 1%N 1%N 0 1 (inner [4%N; 1%N] NULL)
           shared_heap); try reflexivity; try discriminate; try apply reach_refl.
  eapply reach_step; [reflexivity | | apply reach_refl]. apply elem_of_cons. by left.
Defined.

(** ** Context propagation: what it leaves alone, and repeating it *)

Lemma store_same p o h : ops h !! p = Some o -> store p o h = h.
Proof. intros Hp. destruct h as [m t]. unfold store. simpl in *. by rewrite insert_id. Qed.

Lemma store_tensor_same a t h : tensors h !! a = Some t -> store_tensor a t h = h.
Proof. intros Ha. destruct h as [m ts]. unfold store_tensor. simpl in *. by rewrite insert_id. Qed.

Lemma store_store p o o' h : store p o' (store p o h) = store p o' h.
Proof. unfold store. simpl. by rewrite insert_insert_eq. Qed.

Lemma reach_trans h p q r : reach h p q -> reach h q r -> reach h p r.
Proof.
  intros Hpq Hqr. induction Hpq as [p|p o i q Hp Hi Hr IH]; [done|].
  eapply reach_step; eauto.
Qed.

(** The conditional write to the cached output tensor, with its guard. *)
Lemma tensor_step_guarded (g : option (Tensor -> Tensor)) a h h2 :
  match g with
  | Some f =>
      if (a =? NULL)%N then Ok h
      else t ← load_tensor a h; Ok (store_tensor a (f t) h)
  | None => Ok h
  end = Ok h2 ->
  h2 = h
  \/ (exists t, is_Some g /\ a <> NULL /\ tensors h !! a = Some t
                /\ h2 = store_tensor a (tfun g t) h).
Proof.
  destruct g as [f|]; simpl.
  - destruct (a =? NULL)%N eqn:En.
    + intros H. apply Ok_inj in H. by left.
    + intros H. inv_bind H. apply Ok_inj in Hb. apply of_option_Ok in Ha.
      apply N.eqb_neq in En. right. eauto 10.
  - intros H. apply Ok_inj in H. by left.
Qed.

Section BroadcastFrame.

Variable set_op : Operation -> Operation.
Variable set_t : option (Tensor -> Tensor).

Hypothesis set_op_inputs : forall o, inputs (set_op o) = inputs o.
Hypothesis set_op_output_tensor : forall o, output_tensor (set_op o) = output_tensor o.
Hypothesis set_op_idem : forall o, set_op (set_op o) = set_op o.
Hypothesis set_t_idem : forall t, tfun set_t (tfun set_t t) = tfun set_t t.

Lemma bc_rel_op_inv h h' q o' :
  bc_rel set_op set_t h h' -> ops h' !! q = Some o' ->
  exists o, ops h !! q = Some o /\ (o' = o \/ o' = set_op o).
Proof.
  intros [A _] Hq. specialize (A q). rewrite Hq in A.
  destruct (ops h !! q) as [o|]; simpl in A; [eauto | tauto].
Qed.

Lemma reach_rel_inv h h' p q : bc_rel set_op set_t h h' -> reach h' p q -> reach h p q.
Proof.
  intros R Hr. induction Hr as [p|p o' i q Hp Hi Hr IH]; [constructor|].
  destruct (bc_rel_op_inv _ _ _ _ R Hp) as (o & Ho & E).
  eapply reach_step; eauto. destruct E as [->| ->]; [done|]. by rewrite <- set_op_inputs.
Qed.

Lemma foreign_tensor_rel h h' l a :
  bc_rel set_op set_t h h' -> foreign_tensor h l a -> foreign_tensor h' l a.
Proof.
  intros R F i q o' Hi Hr Ho'.
  destruct (bc_rel_op_inv _ _ _ _ R Ho') as (o & Ho & E).
  assert (Et : output_tensor o' = output_tensor o) by (destruct E as [->| ->]; auto).
  rewrite Et. eapply F; eauto. eapply reach_rel_inv; eauto.
Qed.

Lemma for_each_broadcast_unreached n :
  (forall p h h', broadcast set_op set_t n p h = Ok h' ->
     (forall q, ~ reach h p q -> ops h' !! q = ops h !! q)
     /\ (forall a, foreign_tensor h [p] a -> tensors h' !! a = tensors h !! a)) ->
  forall l h h', for_each (broadcast set_op set_t n) l h = Ok h' ->
    (forall q, (forall i, i ∈ l -> ~ reach h i q) -> ops h' !! q = ops h !! q)
    /\ (forall a, foreign_tensor h l a -> tensors h' !! a = tensors h !! a).
Proof.
  intros IH. induction l as [|i l IHl]; intros h h' H; simpl in H.
  - apply Ok_inj in H. by subst.
  - inv_bind H. rename x into ha.
    assert (R : bc_rel set_op set_t h ha) by (eapply broadcast_rel; eauto).
    destruct (IH _ _ _ Ha) as (A1 & B1). destruct (IHl _ _ Hb) as (A2 & B2). split.
    + intros q Hq. rewrite A2, A1; [done| |].
      * apply Hq. apply elem_of_cons; auto.
      * intros j Hj Hr. apply (Hq j); [apply elem_of_cons; auto|].
        eapply reach_rel_inv; eauto.
    + intros a F. rewrite B2, B1; [done| |].
      * intros j q o Hj. apply list_elem_of_singleton in Hj as ->.
        apply F. apply elem_of_cons; auto.
      * eapply foreign_tensor_rel; [exact R|].
        intros j q o Hj. apply F. apply elem_of_cons; auto.
Qed.

(** A broadcast writes below [p] only. *)
Lemma broadcast_unreached n : forall p h h',
  broadcast set_op set_t n p h = Ok h' ->
  (forall q, ~ reach h p q -> ops h' !! q = ops h !! q)
  /\ (forall a, foreign_tensor h [p] a -> tensors h' !! a = tensors h !! a).
Proof.
  induction n as [|n IH]; intros p h h' H; simpl in H; [discriminate|].
  inv_bind H. inv_bind Hb. inv_bind Hbb. rename x into o, x0 into h1, x1 into o1.
  inv_bind Hbbb. rename x into h2. inv_bind Hbbbb. rename x into o2.
  apply Ok_inj in Hbbbbb. subst h'. apply load_Ok in Ha, Hbba, Hbbbba.
  destruct (for_each_broadcast_unreached n IH _ _ _ Hba) as (A1 & B1).
  assert (R1 : bc_rel set_op set_t h h1).
  { eapply (for_each_preorder (bc_rel set_op set_t));
      eauto using bc_rel_refl, bc_rel_trans, broadcast_rel. }
  destruct (bc_rel_field set_op set_t output_tensor _ _ _ _ set_op_output_tensor R1 Ha)
    as (o1' & Ho1' & Et).
  assert (o1' = o1) as -> by congruence.
  split.
  - intros q Hq. assert (q <> p) by (intros ->; apply Hq; constructor).
    simpl. rewrite lookup_insert_ne by done.
    transitivity (ops h1 !! q).
    + by destruct (tensor_step_guarded _ _ _ _ Hbbba) as [->|(t & _ & _ & _ & ->)].
    + apply A1. intros i Hi Hr. apply Hq. eapply reach_step; eauto.
  - intros a F. simpl. transitivity (tensors h1 !! a).
    + destruct (tensor_step_guarded _ _ _ _ Hbbba) as [->|(t & _ & _ & _ & ->)]; [done|].
      simpl. apply lookup_insert_ne. rewrite Et.
      apply (F p p o); [by apply list_elem_of_singleton | constructor | done].
    + apply B1. intros i q o' Hi Hr. apply (F p); [by apply list_elem_of_singleton|].
      eapply reach_step; eauto.
Qed.

Lemma for_each_broadcast_idem n :
  (forall p h h', broadcast set_op set_t n p h = Ok h' ->
     (forall q, reach h p q -> settled set_op set_t h q) -> h' = h) ->
  forall l h h', for_each (broadcast set_op set_t n) l h = Ok h' ->
    (forall i q, i ∈ l -> reach h i q -> settled set_op set_t h q) -> h' = h.
Proof.
  intros IH. induction l as [|i l IHl]; intros h h' H Hs; simpl in H.
  - apply Ok_inj in H. by subst.
  - inv_bind H. rename x into ha.
    assert (ha = h) as ->.
    { eapply IH; [exact Ha|]. intros q. apply Hs. apply elem_of_cons; auto. }
    eapply IHl; [exact Hb|]. intros j q Hj. apply Hs. apply elem_of_cons; auto.
Qed.

(** A broadcast over nodes that hold the value already writes nothing new. *)
Lemma broadcast_idem n : forall p h h',
  broadcast set_op set_t n p h = Ok h' ->
  (forall q, reach h p q -> settled set_op set_t h q) -> h' = h.
Proof.
  induction n as [|n IH]; intros p h h' H Hs; simpl in H; [discriminate|].
  inv_bind H. inv_bind Hb. inv_bind Hbb. rename x into o, x0 into h1, x1 into o1.
  inv_bind Hbbb. rename x into h2. inv_bind Hbbbb. rename x into o2.
  apply Ok_inj in Hbbbbb. subst h'. apply load_Ok in Ha, Hbba, Hbbbba.
  assert (h1 = h) as ->.
  { eapply (for_each_broadcast_idem n IH); [exact Hba|].
    intros i q Hi Hr. apply Hs. eapply reach_step; eauto. }
  assert (o1 = o) as -> by congruence.
  destruct (Hs p (reach_refl _ _)) as (o' & Ho' & Hfix & Ht).
  assert (o' = o) as -> by congruence.
  assert (h2 = h) as ->.
  { destruct (tensor_step_guarded _ _ _ _ Hbbba) as [->|(t & Hsome & Hn & Hta & ->)]; [done|].
    destruct (Ht Hsome Hn) as (t' & Ht' & Hfix').
    assert (t' = t) as -> by congruence. rewrite Hfix'. by apply store_tensor_same. }
  assert (o2 = o) as -> by congruence.
  rewrite Hfix. by apply store_same.
Qed.

(** A setter that writes no tensor leaves the tensor store as it is. *)
Lemma bc_rel_tensors_same h h' :
  set_t = None -> bc_rel set_op set_t h h' -> tensors h' = tensors h.
Proof.
  intros Hnone [_ B]. apply map_eq. intros a. specialize (B a).
  unfold tfun in B. rewrite Hnone in B.
  destruct (tensors h !! a), (tensors h' !! a); simpl in B; try tauto.
  by destruct B as [->| ->].
Qed.

Lemma on_cycle_rel h h' p : bc_rel set_op set_t h h' -> on_cycle h p -> on_cycle h' p.
Proof.
  intros R (o & k & Ho & Hk & Hr).
  destruct (bc_rel_field set_op set_t inputs _ _ _ _ set_op_inputs R Ho) as (o' & Ho' & E).
  exists o', k. split; [done|]. split; [by rewrite E|]. eapply reach_rel; eauto.
Qed.

Lemma for_each_broadcast_cycle n :
  (forall p h h', on_cycle h p -> broadcast set_op set_t n p h <> Ok h') ->
  forall l h h' i, i ∈ l -> on_cycle h i -> for_each (broadcast set_op set_t n) l h <> Ok h'.
Proof.
  intros IH. induction l as [|j l IHl]; intros h h' i Hin Hcyc Hfe;
    [by apply elem_of_nil in Hin|].
  simpl in Hfe. inv_bind Hfe. rename x into ha.
  apply elem_of_cons in Hin as [->|Hin].
  - by apply (IH j h ha).
  - apply (IHl ha h' i Hin); [|done].
    eapply on_cycle_rel; [|exact Hcyc]. eapply broadcast_rel; eauto.
Qed.

(** On a cycle of input edges the recursion does not come back. *)
Lemma broadcast_cycle n : forall p h h',
  on_cycle h p -> broadcast set_op set_t n p h <> Ok h'.
Proof.
  induction n as [|n IH]; intros p h h' (o & i & Hp & Hi & Hr) H; simpl in H; [discriminate|].
  inv_bind H. inv_bind Hb. apply load_Ok in Ha. rename x into o', x0 into h1.
  assert (o' = o) as -> by congruence.
  apply (for_each_broadcast_cycle n IH _ _ _ i Hi) in Hba; [done|].
  inversion Hr as [|i0 oi j p0 Hoi Hj Hjp]; subst.
  - exists o, p. split; [done|]. split; [done | constructor].
  - exists oi, j. split; [done|]. split; [done|].
    eapply reach_trans; [exact Hjp|]. eapply reach_step; [exact Hp | exact Hi | constructor].
Qed.

End BroadcastFrame.

Lemma same_but_context_sym o o' : same_but_context o o' -> same_but_context o' o.
Proof. unfold same_but_context. intuition congruence. Qed.

Lemma ctx_frame_sym h h' : ctx_frame h h' -> ctx_frame h' h.
Proof.
  intros [A B]. split; intros q.
  - specialize (A q). destruct (ops h !! q), (ops h' !! q); simpl in *; try tauto.
    by apply same_but_context_sym.
  - specialize (B q). destruct (tensors h !! q), (tensors h' !! q); simpl in *; try tauto.
    unfold same_but_context_t in *. congruence.
Qed.

Lemma with_custream_same o : with_custream (custream_ o) o = o.
Proof. by destruct o. Qed.

Lemma with_cublas_handle_same o : with_cublas_handle (cublas_handle_ o) o = o.
Proof. by destruct o. Qed.

Lemma with_cudnn_handle_same o : with_cudnn_handle (cudnn_handle_ o) o = o.
Proof. by destruct o. Qed.

Lemma Tensor_set_custream_same t : Tensor_set_custream (t_custream t) t = t.
Proof. by destruct t. Qed.

Lemma Tensor_set_cublas_handle_same t : Tensor_set_cublas_handle (t_cublas_handle t) t = t.
Proof. by destruct t. Qed.

Lemma settled_custream_intro s h q :
  node_has custream_ s h q -> tensor_has t_custream s h q ->
  settled (with_custream s) (Some (Tensor_set_custream s)) h q.
Proof.
  intros (o & Ho & <-) Ht. exists o. split; [done|]. split; [apply with_custream_same|].
  intros _ Hn. destruct (Ht o Ho Hn) as (t & Ha & <-).
  exists t. split; [done|]. apply Tensor_set_custream_same.
Qed.

Lemma settled_cublas_handle_intro c h q :
  node_has cublas_handle_ c h q -> tensor_has t_cublas_handle c h q ->
  settled (with_cublas_handle c) (Some (Tensor_set_cublas_handle c)) h q.
Proof.
  intros (o & Ho & <-) Ht. exists o. split; [done|]. split; [apply with_cublas_handle_same|].
  intros _ Hn. destruct (Ht o Ho Hn) as (t & Ha & <-).
  exists t. split; [done|]. apply Tensor_set_cublas_handle_same.
Qed.

Lemma settled_cudnn_handle_intro c h q :
  node_has cudnn_handle_ c h q -> settled (with_cudnn_handle c) None h q.
Proof.
  intros (o & Ho & <-). exists o. split; [done|]. split; [apply with_cudnn_handle_same|].
  intros [? ?]; discriminate.
Qed.

(** X3. [cuda_exec_context] writes below [this] only: a node that the input
    edges do not reach from [this] is exactly as before, and so is every
    tensor that is not the cached output tensor of a reachable node. *)
Theorem cuda_exec_context_writes_below_only
  (n : nat) (this : N) (ctx : CudaExecContext) (h : Heap) :
  wf_at n h this = true ->
  exists h', cuda_exec_context n this ctx h = Ok h'
    /\ (forall q, ~ reach h this q -> ops h' !! q = ops h !! q)
    /\ (forall a,
          (forall q o, reach h this q -> ops h !! q = Some o -> output_tensor o <> a) ->
          tensors h' !! a = tensors h !! a).
Proof.
  intros Hwf. destruct (cuda_exec_context_spec n this ctx h Hwf) as (h' & E & _ & _).
  exists h'. split; [exact E|].
  unfold cuda_exec_context in E. inv_bind E. inv_bind Eb. rename x into h1, x0 into h2.
  rewrite set_custream_broadcast in Ea. rewrite set_cublas_handle_broadcast in Eba.
  rewrite set_cudnn_handle_broadcast in Ebb.
  set (f1 := with_custream (stream ctx)) in *.
  set (g1 := Some (Tensor_set_custream (stream ctx))) in *.
  set (f2 := with_cublas_handle (cublas_handle ctx)) in *.
  set (g2 := Some (Tensor_set_cublas_handle (cublas_handle ctx))) in *.
  set (f3 := with_cudnn_handle (cudnn_handle ctx)) in *.
  set (g3 := @None (Tensor -> Tensor)) in *.
  pose proof (broadcast_rel f1 g1 ltac:(done) ltac:(done) _ _ _ _ Ea) as R1.
  pose proof (broadcast_rel f2 g2 ltac:(done) ltac:(done) _ _ _ _ Eba) as R2.
  destruct (broadcast_unreached f1 g1 ltac:(done) ltac:(done) ltac:(done) ltac:(done)
              _ _ _ _ Ea) as (A1 & B1).
  destruct (broadcast_unreached f2 g2 ltac:(done) ltac:(done) ltac:(done) ltac:(done)
              _ _ _ _ Eba) as (A2 & B2).
  destruct (broadcast_unreached f3 g3 ltac:(done) ltac:(done) ltac:(done) ltac:(done)
              _ _ _ _ Ebb) as (A3 & B3).
  assert (I1 : forall q, reach h1 this q -> reach h this q)
    by (intros q; by apply (reach_rel_inv f1 g1)).
  assert (I2 : forall q, reach h2 this q -> reach h1 this q)
    by (intros q; by apply (reach_rel_inv f2 g2)).
  split.
  - intros q Hq. rewrite A3, A2, A1; auto.
  - intros a F.
    assert (F0 : foreign_tensor h [this] a).
    { intros i q o Hi. apply list_elem_of_singleton in Hi as ->. apply F. }
    assert (F1 : foreign_tensor h1 [this] a)
      by (by apply (foreign_tensor_rel f1 g1 ltac:(done) ltac:(done) h)).
    assert (F2 : foreign_tensor h2 [this] a)
      by (by apply (foreign_tensor_rel f2 g2 ltac:(done) ltac:(done) h1)).
    rewrite B3, B2, B1; auto.
Qed.

Lemma cuda_exec_context_writes_below_only_witness :
  wf_at 1 test_heap 1%N = true
  /\ exists h', cuda_exec_context 1 1%N (mkCtx 1 2 3) test_heap = Ok h'
       /\ ops h' !! 3%N = ops test_heap !! 3%N.
Proof.
  split; [reflexivity|].
  destruct (cuda_exec_context_writes_below_only 1 1%N (mkCtx 1 2 3) test_heap)
    as (h' & E & A & _); [reflexivity|].
  exists h'. split; [exact E|]. apply A. intros Hr.
  inversion Hr as [|p o i q Hp Hi Hr']; subst. simpl in Hp.
  rewrite lookup_insert_eq in Hp. injection Hp as <-. by apply elem_of_nil in Hi.
Defined.

(** X4. Applying the same context twice is the same as applying it once:
    the second [cuda_exec_context] returns the store it was given. *)
Theorem cuda_exec_context_idempotent
  (n : nat) (this : N) (ctx : CudaExecContext) (h : Heap) :
  wf_at n h this = true ->
  exists h1, cuda_exec_context n this ctx h = Ok h1
    /\ cuda_exec_context n this ctx h1 = Ok h1.
Proof.
  intros Hwf. destruct (cuda_exec_context_spec n this ctx h Hwf) as (h1 & E1 & R1 & P1).
  exists h1. split; [exact E1|].
  pose proof (wf_at_frame _ _ _ _ R1 Hwf) as Hwf1.
  assert (P : forall q, reach h1 this q ->
            node_has custream_ (stream ctx) h1 q
            /\ node_has cublas_handle_ (cublas_handle ctx) h1 q
            /\ node_has cudnn_handle_ (cudnn_handle ctx) h1 q
            /\ tensor_has t_custream (stream ctx) h1 q
            /\ tensor_has t_cublas_handle (cublas_handle ctx) h1 q).
  { intros q Hq. apply P1. eapply reach_frame; [apply ctx_frame_sym; exact R1 | exact Hq]. }
  set (f1 := with_custream (stream ctx)).
  set (g1 := Some (Tensor_set_custream (stream ctx))).
  set (f2 := with_cublas_handle (cublas_handle ctx)).
  set (g2 := Some (Tensor_set_cublas_handle (cublas_handle ctx))).
  set (f3 := with_cudnn_handle (cudnn_handle ctx)).
  set (g3 := @None (Tensor -> Tensor)).
  destruct (broadcast_ok f1 g1 ltac:(done) ltac:(done) ltac:(done) ltac:(done) n this h1 Hwf1)
    as (ha & Ea).
  assert (ha = h1) as ->.
  { eapply (broadcast_idem f1 g1); [exact Ea|]. intros q Hq.
    destruct (P q Hq) as (? & _ & _ & ? & _). by apply settled_custream_intro. }
  destruct (broadcast_ok f2 g2 ltac:(done) ltac:(done) ltac:(done) ltac:(done) n this h1 Hwf1)
    as (hb & Eb).
  assert (hb = h1) as ->.
  { eapply (broadcast_idem f2 g2); [exact Eb|]. intros q Hq.
    destruct (P q Hq) as (_ & ? & _ & _ & ?). by apply settled_cublas_handle_intro. }
  destruct (broadcast_ok f3 g3 ltac:(done) ltac:(done) ltac:(done) ltac:(done) n this h1 Hwf1)
    as (hc & Ec).
  assert (hc = h1) as ->.
  { eapply (broadcast_idem f3 g3); [exact Ec|]. intros q Hq.
    destruct (P q Hq) as (_ & _ & ? & _). by apply settled_cudnn_handle_intro. }
  unfold cuda_exec_context.
  rewrite set_custream_broadcast. fold f1 g1. rewrite Ea. simpl.
  rewrite set_cublas_handle_broadcast. fold f2 g2. rewrite Eb. simpl.
  rewrite set_cudnn_handle_broadcast. exact Ec.
Qed.

Lemma cuda_exec_context_idempotent_witness :
  wf_at 2 test_heap 3%N = true
  /\ exists h1, cuda_exec_context 2 3%N (mkCtx 1 2 3) test_heap = Ok h1
       /\ cuda_exec_context 2 3%N (mkCtx 1 2 3) h1 = Ok h1.
Proof.
  split; [reflexivity|].
  apply (cuda_exec_context_idempotent 2 3%N (mkCtx 1 2 3) test_heap). reflexivity.
Defined.

Lemma with_async_same o : with_async (async_ o) o = o.
Proof. by destruct o. Qed.

(** X5. On a live graph within the fuel [set_async] returns; every node
    below [this] then reports the flag, no node has changed in anything but
    its [async_] member, nodes that are not below [this] have not changed
    at all, and the tensor store is untouched. *)
Theorem set_async_reaches_all (n : nat) (this : N) (a : bool) (h : Heap) :
  wf_at n h this = true ->
  exists h', set_async n this a h = Ok h'
    /\ tensors h' = tensors h
    /\ (forall q, reach h this q -> get_async q h' = Ok a)
    /\ (forall q, ~ reach h this q -> ops h' !! q = ops h !! q)
    /\ (forall q o, ops h !! q = Some o ->
          exists o', ops h' !! q = Some o' /\ o' = with_async (async_ o') o).
Proof.
  intros Hwf. rewrite set_async_broadcast.
  set (f := with_async a). set (g := @None (Tensor -> Tensor)).
  destruct (broadcast_ok f g ltac:(done) ltac:(done) ltac:(done) ltac:(done) n this h Hwf)
    as (h' & E).
  pose proof (broadcast_rel f g ltac:(done) ltac:(done) _ _ _ _ E) as R.
  pose proof (broadcast_settled f g ltac:(done) ltac:(done) ltac:(done) ltac:(done)
                _ _ _ _ E) as D.
  destruct (broadcast_unreached f g ltac:(done) ltac:(done) ltac:(done) ltac:(done)
              _ _ _ _ E) as (A & _).
  exists h'. split; [exact E|]. split; [by apply (bc_rel_tensors_same f g)|].
  split; [|split; [exact A|]].
  - intros q Hq. destruct (D q Hq) as (o & Ho & Hfix & _).
    unfold get_async. rewrite (load_Some _ _ _ Ho). simpl. by rewrite <- Hfix.
  - intros q o Ho. destruct (bc_rel_op f g _ _ _ _ R Ho) as (o' & Ho' & [->| ->]).
    + exists o. split; [exact Ho'|]. by rewrite with_async_same.
    + exists (f o). by split.
Qed.

Lemma set_async_reaches_all_witness :
  wf_at 2 test_heap 3%N = true
  /\ exists h', set_async 2 3%N true test_heap = Ok h' /\ get_async 1%N h' = Ok true.
Proof.
  split; [reflexivity|].
  destruct (set_async_reaches_all 2 3%N true test_heap) as (h' & E & _ & H & _); [reflexivity|].
  exists h'. split; [exact E|]. apply H.
  eapply reach_step; [reflexivity | | apply reach_refl]. apply elem_of_cons. by left.
Defined.

(** X6. The setters are public one by one, and one of them on its own
    leaves the others' members alone: after a full context has been
    applied, [set_custream] with another stream returns and every node
    below [this] then reports the new stream together with the two library
    handles of the old context. *)
Theorem set_custream_keeps_handles
  (n : nat) (this : N) (ctx : CudaExecContext) (s : N) (h : Heap) :
  wf_at n h this = true ->
  exists h1 h2, cuda_exec_context n this ctx h = Ok h1
    /\ set_custream n this s h1 = Ok h2
    /\ forall q, reach h this q ->
         get_custream q h2 = Ok s
         /\ get_cublas_handle q h2 = Ok (cublas_handle ctx)
         /\ get_cudnn_handle q h2 = Ok (cudnn_handle ctx).
Proof.
  intros Hwf. destruct (cuda_exec_context_spec n this ctx h Hwf) as (h1 & E1 & R1 & P1).
  pose proof (wf_at_frame _ _ _ _ R1 Hwf) as Hwf1.
  set (f := with_custream s). set (g := Some (Tensor_set_custream s)).
  destruct (broadcast_ok f g ltac:(done) ltac:(done) ltac:(done) ltac:(done) n this h1 Hwf1)
    as (h2 & E2).
  pose proof (broadcast_rel f g ltac:(done) ltac:(done) _ _ _ _ E2) as R2.
  pose proof (broadcast_settled f g ltac:(done) ltac:(done) ltac:(done) ltac:(done)
                _ _ _ _ E2) as D2.
  exists h1, h2. split; [exact E1|]. split; [by rewrite set_custream_broadcast|].
  intros q Hq. destruct (P1 q Hq) as (_ & Nb & Nd & _).
  destruct (D2 q (reach_frame _ _ _ _ R1 Hq)) as (o2 & Ho2 & Hfix & _).
  destruct (node_has_rel f g cublas_handle_ _ _ _ _ ltac:(done) R2 Nb) as (ob & Hob & Eb).
  destruct (node_has_rel f g cudnn_handle_ _ _ _ _ ltac:(done) R2 Nd) as (od & Hod & Ed).
  assert (ob = o2) as -> by congruence. assert (od = o2) as -> by congruence.
  unfold get_custream, get_cublas_handle, get_cudnn_handle.
  rewrite (load_Some _ _ _ Ho2). simpl. rewrite Eb, Ed. by rewrite <- Hfix.
Qed.

Lemma set_custream_keeps_handles_witness :
  wf_at 2 test_heap 3%N = true
  /\ exists h1 h2, cuda_exec_context 2 3%N (mkCtx 1 2 3) test_heap = Ok h1
       /\ set_custream 2 3%N 4%N h1 = Ok h2
       /\ get_custream 2%N h2 = Ok 4%N /\ get_cublas_handle 2%N h2 = Ok 2%N.
Proof.
  split; [reflexivity|].
  destruct (set_custream_keeps_handles 2 3%N (mkCtx 1 2 3) 4%N test_heap)
    as (h1 & h2 & E1 & E2 & H); [reflexivity|].
  exists h1, h2. split; [exact E1|]. split; [exact E2|].
  assert (Hr : reach test_heap 3%N 2%N); [|destruct (H 2%N Hr) as (? & ? & _); by split].
  eapply reach_step; [reflexivity | | apply reach_refl].
  apply elem_of_cons. right. apply elem_of_cons. by left.
Defined.

(** X7. The recursions of the header do not come back from a cycle of
    input edges.  If [p] lies on a cycle then, whatever the fuel, none of
    the four setters and neither [cuda_exec_context] nor [delete p] returns
    normally. *)
Theorem cycle_never_returns (p : N) (h : Heap) :
  on_cycle h p ->
  ops h !! NULL = None ->
  forall fuel h',
    (forall s, set_custream fuel p s h <> Ok h')
    /\ (forall c, set_cudnn_handle fuel p c h <> Ok h')
    /\ (forall c, set_cublas_handle fuel p c h <> Ok h')
    /\ (forall a, set_async fuel p a h <> Ok h')
    /\ (forall ctx, cuda_exec_context fuel p ctx h <> Ok h')
    /\ delete_Operation fuel p h <> Ok h'.
Proof.
  intros Hcyc Hnull fuel h'.
  split; [intros s; rewrite set_custream_broadcast; by apply broadcast_cycle|].
  split; [intros c; rewrite set_cudnn_handle_broadcast; by apply broadcast_cycle|].
  split; [intros c; rewrite set_cublas_handle_broadcast; by apply broadcast_cycle|].
  split; [intros a; rewrite set_async_broadcast; by apply broadcast_cycle|].
  split.
  - intros ctx E. unfold cuda_exec_context in E. inv_bind E.
    rewrite set_custream_broadcast in Ea. revert Ea. by apply broadcast_cycle.
  - intros E. destruct Hcyc as (o & i & Hp & Hi & Hr).
    assert (Hpn : p <> NULL) by (intros ->; congruence).
    destruct (delete_only_trees _ _ _ _ E) as (D & HD).
    destruct (subtree_node _ _ _ _ Hpn HD) as (n' & o' & D' & _ & Ho' & Hc & Hnot & _).
    assert (o' = o) as -> by congruence.
    destruct (collect_sub _ _ _ _ Hc Hi) as (Di & Hsi & Hsub).
    apply Hnot, Hsub. by eapply reach_subtree.
Qed.

Lemma cycle_never_returns_witness :
  on_cycle cyclic_heap 1%N
  /\ forall h', cuda_exec_context 9 1%N (mkCtx 1 2 3) cyclic_heap <> Ok h'.
Proof.
  assert (C : on_cycle cyclic_heap 1%N).
  { exists (inner [2%N] NULL), 2%N. split; [reflexivity|].
    split; [apply elem_of_cons; by left|].
    eapply reach_step; [reflexivity | | apply reach_refl]. apply elem_of_cons. by left. }
  split; [exact C|]. intros h'.
  by apply (cycle_never_returns 1%N cyclic_heap C).
Defined.

(** ** The constructors *)

(** A setter on a node without inputs and without cached tensor. *)
Lemma broadcast_leaf set_op set_t n this o h :
  ops h !! this = Some o -> inputs o = [] -> output_tensor o = NULL ->
  broadcast set_op set_t (S n) this h = Ok (store this (set_op o) h).
Proof.
  intros Hthis Hi Ht. simpl. rewrite (load_Some _ _ _ Hthis). simpl. rewrite Hi. simpl.
  rewrite (load_Some _ _ _ Hthis). simpl. rewrite Ht.
  destruct set_t; simpl; by rewrite (load_Some _ _ _ Hthis).
Qed.

(** X8. [Operation()] returns with any fuel above zero and writes one cell,
    the new node: no inputs, no consumers, empty shape, empty gradient
    cache, the default name, a null output tensor and a cleared computed
    flag.  [mem_type], [needs_grad] and [has_grad_been_computed] are
    whatever the storage held, and so are the four context members unless
    the build has CUDA, where they are the null stream, the two global
    handles and synchronous dispatch. *)
Theorem Operation_default_state
  (cuda : bool) (c1 c2 : N) (n : nat) (this : N) (raw : Operation) (h : Heap) :
  Operation_default cuda c1 c2 (S n) this raw h
  = Ok (store this
          {| inputs := []; consumers := []; output_shape := [];
             mem_type := mem_type raw; _grad_cache := ∅;
             name := "DefaultOpName"; output_tensor := NULL;
             needs_grad := needs_grad raw; has_been_computed := false;
             has_grad_been_computed := has_grad_been_computed raw;
             custream_ := if cuda then NULL else custream_ raw;
             cudnn_handle_ := if cuda then c1 else cudnn_handle_ raw;
             cublas_handle_ := if cuda then c2 else cublas_handle_ raw;
             async_ := if cuda then false else async_ raw |} h).
Proof.
  unfold Operation_default, default_context. destruct cuda; [|reflexivity].
  match goal with |- context [store this ?o h] => set (o0 := o) end.
  rewrite set_custream_broadcast.
  rewrite (broadcast_leaf _ _ n this o0) by (try apply lookup_insert_eq; reflexivity).
  cbn [mbind result_bind]. rewrite store_store, set_cudnn_handle_broadcast.
  rewrite (broadcast_leaf _ _ n this (with_custream NULL o0))
    by (try apply lookup_insert_eq; reflexivity).
  cbn [mbind result_bind]. rewrite store_store, set_cublas_handle_broadcast.
  rewrite (broadcast_leaf _ _ n this (with_cudnn_handle c1 (with_custream NULL o0)))
    by (try apply lookup_insert_eq; reflexivity).
  cbn [mbind result_bind]. rewrite store_store, set_async_broadcast.
  rewrite (broadcast_leaf _ _ n this
             (with_cublas_handle c2 (with_cudnn_handle c1 (with_custream NULL o0))))
    by (try apply lookup_insert_eq; reflexivity).
  by rewrite store_store.
Qed.

Lemma register_inputs_no_grad this (vit : list N) : forall h o0,
  ops h !! this = Some o0 ->
  register_inputs this false vit h
  = Ok (store this
          (with_grad_cache
             (fold_left (fun m i => map_insert_new i NULL m) vit (_grad_cache o0)) o0) h).
Proof.
  induction vit as [|i vit IH]; intros h o0 Hthis; simpl.
  - by rewrite with_grad_cache_id, store_same.
  - rewrite (load_Some _ _ _ Hthis). simpl.
    rewrite (IH _ (with_grad_cache (map_insert_new i NULL (_grad_cache o0)) o0))
      by (simpl; apply lookup_insert_eq).
    by rewrite store_store.
Qed.

(** X9. In a build without CUDA, [Operation(inputs, false)] never looks at
    an input: it returns on every store, whatever the pointers in the list
    are (null, dangling, repeated), and writes one cell, the new node, with
    a null cache slot for each pointer of the list. *)
Theorem Operation_ctor_no_grad_no_cuda
  (c1 c2 : N) (fuel : nat) (this : N) (raw : Operation) (ins : list N) (h : Heap) :
  exists o', Operation_ctor false c1 c2 fuel this raw ins false h = Ok (store this o' h)
    /\ inputs o' = ins /\ consumers o' = [] /\ needs_grad o' = false
    /\ output_tensor o' = NULL /\ output_shape o' = []
    /\ has_been_computed o' = has_been_computed raw
    /\ forall k, _grad_cache o' !! k = if decide (k ∈ ins) then Some NULL else None.
Proof.
  unfold Operation_ctor, default_context.
  match goal with |- context [store this ?o h] => set (o0 := o) end.
  rewrite (register_inputs_no_grad this ins _ o0) by (simpl; apply lookup_insert_eq).
  cbn [mbind result_bind]. rewrite store_store.
  eexists. split; [reflexivity|]. simpl. repeat (split; [reflexivity|]).
  intros k. rewrite insert_new_fold_lookup. by rewrite lookup_empty.
Qed.

Lemma register_inputs_dead_input this (vit : list N) : forall h i,
  i ∈ vit -> i <> this -> ops h !! i = None ->
  register_inputs this true vit h = Undefined.
Proof.
  induction vit as [|j vit IH]; intros h i Hi Hne Hdead; [by apply elem_of_nil in Hi|].
  simpl. unfold add_consumer, load.
  destruct (ops h !! j) as [oj|] eqn:Hj; simpl; [|done].
  assert (Hij : i <> j) by (intros ->; congruence).
  apply elem_of_cons in Hi as [->|Hi]; [done|].
  destruct (<[j:=with_consumers (consumers oj ++ [this]) oj]> (ops h) !! this) as [o|];
    simpl; [|done].
  apply (IH _ i Hi Hne). simpl. by rewrite !lookup_insert_ne.
Qed.

(** X10. [Operation(inputs, true)] dereferences every input: if one of the
    pointers of the list is not a live node, the construction is undefined
    behaviour, in every build and with any fuel. *)
Theorem Operation_ctor_dead_input
  (cuda : bool) (c1 c2 : N) (fuel : nat) (this i : N) (raw : Operation) (ins : list N)
  (h : Heap) :
  i ∈ ins -> i <> this -> ops h !! i = None ->
  Operation_ctor cuda c1 c2 fuel this raw ins true h = Undefined.
Proof.
  intros Hi Hne Hdead. unfold Operation_ctor.
  rewrite (register_inputs_dead_input this ins _ i Hi Hne); [done|].
  simpl. by rewrite lookup_insert_ne.
Qed.

Lemma Operation_ctor_dead_input_witness :
  ops test_heap !! 8%N = None
  /\ Operation_ctor false 11%N 12%N 3 4%N raw_storage [1%N; 8%N] true test_heap = Undefined.
Proof.
  split; [reflexivity|].
  apply (Operation_ctor_dead_input false 11%N 12%N 3 4%N 8%N);
    [apply elem_of_cons; right; apply elem_of_cons; by left | discriminate | reflexivity].
Defined.

(** The constructors' context block, in a CUDA build, reaches every node
    below [this]. *)
Lemma default_context_reaches c1 c2 n this h :
  wf_at n h this = true ->
  exists h', default_context true c1 c2 n this h = Ok h' /\ ctx_frame h h'
    /\ forall q, reach h this q ->
         node_has custream_ NULL h' q
         /\ node_has cudnn_handle_ c1 h' q
         /\ node_has cublas_handle_ c2 h' q
         /\ (exists o, ops h' !! q = Some o /\ async_ o = false)
         /\ tensor_has t_custream NULL h' q
         /\ tensor_has t_cublas_handle c2 h' q.
Proof.
  intros Hwf. unfold default_context.
  set (f1 := with_custream NULL). set (g1 := Some (Tensor_set_custream NULL)).
  set (f2 := with_cudnn_handle c1). set (g2 := @None (Tensor -> Tensor)).
  set (f3 := with_cublas_handle c2). set (g3 := Some (Tensor_set_cublas_handle c2)).
  set (f4 := with_async false).
  destruct (broadcast_ok f1 g1 ltac:(done) ltac:(done) ltac:(done) ltac:(done) n this h Hwf)
    as (h1 & E1).
  pose proof (broadcast_rel f1 g1 ltac:(done) ltac:(done) _ _ _ _ E1) as R1.
  pose proof (broadcast_settled f1 g1 ltac:(done) ltac:(done) ltac:(done) ltac:(done)
                _ _ _ _ E1) as D1.
  pose proof (wf_at_rel f1 g1 ltac:(done) ltac:(done) _ _ _ _ R1 Hwf) as Hwf1.
  destruct (broadcast_ok f2 g2 ltac:(done) ltac:(done) ltac:(done) ltac:(done) n this h1 Hwf1)
    as (h2 & E2).
  pose proof (broadcast_rel f2 g2 ltac:(done) ltac:(done) _ _ _ _ E2) as R2.
  pose proof (broadcast_settled f2 g2 ltac:(done) ltac:(done) ltac:(done) ltac:(done)
                _ _ _ _ E2) as D2.
  pose proof (wf_at_rel f2 g2 ltac:(done) ltac:(done) _ _ _ _ R2 Hwf1) as Hwf2.
  destruct (broadcast_ok f3 g3 ltac:(done) ltac:(done) ltac:(done) ltac:(done) n this h2 Hwf2)
    as (h3 & E3).
  pose proof (broadcast_rel f3 g3 ltac:(done) ltac:(done) _ _ _ _ E3) as R3.
  pose proof (broadcast_settled f3 g3 ltac:(done) ltac:(done) ltac:(done) ltac:(done)
                _ _ _ _ E3) as D3.
  pose proof (wf_at_rel f3 g3 ltac:(done) ltac:(done) _ _ _ _ R3 Hwf2) as Hwf3.
  destruct (broadcast_ok f4 g2 ltac:(done) ltac:(done) ltac:(done) ltac:(done) n this h3 Hwf3)
    as (h4 & E4).
  pose proof (broadcast_rel f4 g2 ltac:(done) ltac:(done) _ _ _ _ E4) as R4.
  pose proof (broadcast_settled f4 g2 ltac:(done) ltac:(done) ltac:(done) ltac:(done)
                _ _ _ _ E4) as D4.
  assert (X1 : set_custream n this NULL h = Ok h1) by (by rewrite set_custream_broadcast).
  assert (X2 : set_cudnn_handle n this c1 h1 = Ok h2) by (by rewrite set_cudnn_handle_broadcast).
  assert (X3 : set_cublas_handle n this c2 h2 = Ok h3)
    by (by rewrite set_cublas_handle_broadcast).
  assert (X4 : set_async n this false h3 = Ok h4) by (by rewrite set_async_broadcast).
  exists h4. split; [|split].
  - rewrite X1. cbn [mbind result_bind]. rewrite X2. cbn [mbind result_bind].
    rewrite X3. cbn [mbind result_bind]. exact X4.
  - eapply ctx_frame_trans; [eapply set_custream_frame; exact X1|].
    eapply ctx_frame_trans; [eapply set_cudnn_handle_frame; exact X2|].
    eapply ctx_frame_trans; [eapply set_cublas_handle_frame; exact X3|].
    eapply set_async_frame; exact X4.
  - intros q Hq.
    assert (Hq1 : reach h1 this q) by (eapply (reach_rel f1 g1); eauto; done).
    assert (Hq2 : reach h2 this q) by (eapply (reach_rel f2 g2); eauto; done).
    assert (Hq3 : reach h3 this q) by (eapply (reach_rel f3 g3); eauto; done).
    destruct (settled_custream _ _ _ (D1 q Hq)) as (N1 & T1).
    pose proof (settled_cudnn_handle _ _ _ (D2 q Hq1)) as N2.
    destruct (settled_cublas_handle _ _ _ (D3 q Hq2)) as (N3 & T3).
    destruct (D4 q Hq3) as (o4 & Ho4 & Hfix4 & _).
    assert (S1 : is_Some (ops h1 !! q)) by (destruct N1 as (? & ? & _); eauto).
    assert (S2 : is_Some (ops h2 !! q)) by (destruct N2 as (? & ? & _); eauto).
    assert (S3 : is_Some (ops h3 !! q)) by (destruct N3 as (? & ? & _); eauto).
    split; [|split; [|split; [|split; [|split]]]].
    + eapply (node_has_rel f4 g2); [done|exact R4|].
      eapply (node_has_rel f3 g3); [done|exact R3|].
      eapply (node_has_rel f2 g2); [done|exact R2|exact N1].
    + eapply (node_has_rel f4 g2); [done|exact R4|].
      eapply (node_has_rel f3 g3); [done|exact R3|exact N2].
    + eapply (node_has_rel f4 g2); [done|exact R4|exact N3].
    + exists o4. split; [done|]. by rewrite <- Hfix4.
    + eapply (tensor_has_rel f4 g2); [done|done|exact R4|exact S3|].
      eapply (tensor_has_rel f3 g3); [done|done|exact R3|exact S2|].
      eapply (tensor_has_rel f2 g2); [done|done|exact R2|exact S1|exact T1].
    + eapply (tensor_has_rel f4 g2); [done|done|exact R4|exact S3|exact T3].
Qed.

(** The two steps of [Operation(inputs, needs_grad)] at a fresh address
    over live inputs. *)
Lemma Operation_ctor_steps cuda c1 c2 n this raw (ins : list N) ng h :
  ops h !! this = None ->
  forallb (wf_at n h) ins = true ->
  exists h1 o1, graph_le h h1 /\ ops h1 !! this = Some o1
    /\ inputs o1 = ins /\ consumers o1 = [] /\ output_shape o1 = []
    /\ output_tensor o1 = NULL /\ needs_grad o1 = ng
    /\ has_been_computed o1 = has_been_computed raw
    /\ has_grad_been_computed o1 = has_grad_been_computed raw
    /\ wf_at (S n) h1 this = true
    /\ Operation_ctor cuda c1 c2 (S n) this raw ins ng h
       = default_context cuda c1 c2 (S n) this h1.
Proof.
  intros Hfresh Hins. unfold Operation_ctor.
  match goal with |- context [store this ?o h] => set (o0 := o) end.
  assert (Hlive : forall i, i ∈ ins -> i <> this /\ is_Some (ops h !! i)).
  { intros i Hi. apply list_elem_of_In in Hi.
    eapply forallb_forall in Hins; [|exact Hi]. apply wf_at_live in Hins.
    split; [|done]. intros ->. rewrite Hfresh in Hins. by destruct Hins. }
  destruct (register_inputs_spec this ng ins (store this o0 h) o0) as (h1 & E1 & T1 & C1 & F1).
  { simpl. by rewrite lookup_insert_eq. }
  { intros i Hi. destruct (Hlive i Hi) as (Hne & Hs). split; [done|].
    simpl. by rewrite lookup_insert_ne. }
  assert (G1 : graph_le h h1).
  { split.
    - intros q o Hq. assert (q <> this) by (intros ->; congruence).
      rewrite F1 by done. simpl. rewrite lookup_insert_ne by done. rewrite Hq. simpl. eauto.
    - intros a. by rewrite T1. }
  eexists h1, _. split; [exact G1|]. split; [exact C1|].
  simpl. repeat (split; [reflexivity|]). split.
  - rewrite C1. simpl. apply forallb_forall. intros i Hi.
    eapply wf_at_le; [exact G1|]. eapply forallb_forall in Hins; eauto.
  - rewrite E1. reflexivity.
Qed.

(** X11. In a CUDA build every construction resets the execution context
    of the whole graph under the new node: after [Operation(inputs,
    needs_grad)] every node below an input reports the null stream, the
    two global handles and synchronous dispatch, whatever context had been
    applied to it before, and its cached output tensor carries the null
    stream and the global cuBLAS handle. *)
Theorem Operation_ctor_resets_context
  (c1 c2 : N) (n : nat) (this : N) (raw : Operation) (ins : list N) (ng : bool)
  (h : Heap) :
  ops h !! this = None ->
  forallb (wf_at n h) ins = true ->
  exists h', Operation_ctor true c1 c2 (S n) this raw ins ng h = Ok h'
    /\ forall i q, i ∈ ins -> reach h i q ->
         get_custream q h' = Ok NULL
         /\ get_cudnn_handle q h' = Ok c1
         /\ get_cublas_handle q h' = Ok c2
         /\ get_async q h' = Ok false
         /\ tensor_has t_custream NULL h' q
         /\ tensor_has t_cublas_handle c2 h' q.
Proof.
  intros Hfresh Hins.
  destruct (Operation_ctor_steps true c1 c2 n this raw ins ng h Hfresh Hins)
    as (h1 & o1 & G1 & Ho1 & Hi1 & _ & _ & _ & _ & _ & _ & Hwf & E).
  destruct (default_context_reaches c1 c2 (S n) this h1 Hwf) as (h' & E' & _ & P).
  exists h'. split; [by rewrite E|].
  intros i q Hi Hr.
  assert (Hq : reach h1 this q).
  { eapply reach_step; [exact Ho1 | by rewrite Hi1 | by eapply reach_le]. }
  destruct (P q Hq) as ((oa & Hoa & Sa) & (ob & Hob & Sb) & (oc & Hoc & Sc)
                        & (od & Hod & Sd) & T1 & T2).
  assert (ob = oa) as -> by congruence. assert (oc = oa) as -> by congruence.
  assert (od = oa) as -> by congruence.
  unfold get_custream, get_cudnn_handle, get_cublas_handle, get_async.
  rewrite (load_Some _ _ _ Hoa). simpl. rewrite Sa, Sb, Sc, Sd. done.
Qed.

Lemma Operation_ctor_resets_context_witness :
  ops streamed_heap !! 4%N = None
  /\ forallb (wf_at 2 streamed_heap) [3%N] = true
  /\ get_custream 1%N streamed_heap = Ok 7%N
  /\ exists h', Operation_ctor true 11%N 12%N 3 4%N raw_storage [3%N] true streamed_heap = Ok h'
       /\ get_custream 1%N h' = Ok NULL /\ get_cudnn_handle 1%N h' = Ok 11%N.
Proof.
  split; [reflexivity|]. split; [reflexivity|]. split; [reflexivity|].
  destruct (Operation_ctor_resets_context 11%N 12%N 2 4%N raw_storage [3%N] true streamed_heap)
    as (h' & E & H); [reflexivity | reflexivity |].
  exists h'. split; [exact E|].
  assert (Hr : reach streamed_heap 3%N 1%N).
  { eapply reach_step; [reflexivity | | apply reach_refl]. apply elem_of_cons. by left. }
  destruct (H 3%N 1%N ltac:(apply elem_of_cons; by left) Hr) as (? & ? & _). by split.
Defined.

(** X12. A node fresh from [Operation(inputs, needs_grad)] has a null
    output tensor, so its first [eval] goes to the forward rule for either
    value of [recompute], and the rule sees the computed flag set, even
    though the constructor left that flag to whatever the storage held.
    The node's declared shape is empty: [get_output_size] is 1 and
    [get_output_shape(idx)] fails for every index until a subclass fills
    the shape in. *)
Theorem fresh_node_first_eval
  (_eval : N -> bool -> Heap -> result (N * Heap))
  (cuda : bool) (c1 c2 : N) (n : nat) (this : N) (raw : Operation) (ins : list N)
  (ng : bool) (h : Heap) :
  ops h !! this = None ->
  forallb (wf_at n h) ins = true ->
  exists h' o', Operation_ctor cuda c1 c2 (S n) this raw ins ng h = Ok h'
    /\ ops h' !! this = Some o'
    /\ has_been_computed o' = has_been_computed raw
    /\ (forall recompute,
          eval _eval this recompute h'
          = _eval this recompute (store this (with_has_been_computed true o') h'))
    /\ get_output_size this h' = Ok 1%Z
    /\ forall idx, get_output_shape_at this idx h' = Undefined.
Proof.
  intros Hfresh Hins.
  destruct (Operation_ctor_steps cuda c1 c2 n this raw ins ng h Hfresh Hins)
    as (h1 & o1 & _ & Ho1 & _ & _ & Hs1 & Ht1 & _ & Hc1 & _ & Hwf & E).
  destruct (default_context_spec cuda c1 c2 (S n) this h1 Hwf) as (h' & E' & R).
  destruct (ctx_frame_op _ _ _ _ R Ho1) as (o' & Ho' & S).
  destruct S as (_ & _ & Hs & _ & _ & _ & Ht & _ & Hc & _).
  exists h', o'. split; [by rewrite E|]. split; [exact Ho'|]. split; [congruence|].
  split; [|split].
  - intros recompute. unfold eval. rewrite (load_Some _ _ _ Ho'). simpl.
    rewrite Ht, Ht1. simpl. by rewrite !andb_false_r.
  - unfold get_output_size. rewrite (load_Some _ _ _ Ho'). simpl. by rewrite Hs, Hs1.
  - intros idx. unfold get_output_shape_at. rewrite (load_Some _ _ _ Ho'). simpl.
    by rewrite Hs, Hs1.
Qed.

Lemma fresh_node_first_eval_witness :
  ops test_heap !! 4%N = None
  /\ forallb (wf_at 2 test_heap) [3%N] = true
  /\ has_been_computed raw_storage = true
  /\ exists h', Operation_ctor true 11%N 12%N 3 4%N raw_storage [3%N] true test_heap = Ok h'
       /\ eval failing_eval 4%N false h' = Undefined.
Proof.
  split; [reflexivity|]. split; [reflexivity|]. split; [reflexivity|].
  destruct (fresh_node_first_eval failing_eval true 11%N 12%N 2 4%N raw_storage [3%N] true
              test_heap) as (h' & o' & E & _ & _ & H & _); [reflexivity | reflexivity |].
  exists h'. split; [exact E|]. by rewrite H.
Defined.

(** ** Evaluation and gradient queries *)

(** X13. [reset] invalidates without freeing.  After [reset], [eval] goes
    to the forward rule for either value of [recompute], also on a node
    whose result was cached; the rule runs on the store it would have seen
    before the [reset] with the computed flag set and the gradient flag
    cleared, so the old output tensor is still there to be reused. *)
Theorem eval_after_reset
  (_eval : N -> bool -> Heap -> result (N * Heap)) (this : N) (h : Heap) (o : Operation) :
  ops h !! this = Some o ->
  exists h1 h2,
    reset this h = Ok h1
    /\ h2 = store this (with_has_grad_been_computed false (with_has_been_computed true o)) h
    /\ (forall recompute, eval _eval this recompute h1 = _eval this recompute h2)
    /\ get_output_tensor this h2 = Ok (output_tensor o).
Proof.
  intros Hthis. eexists _, _. split; [|split; [reflexivity|split]].
  - unfold reset. rewrite (load_Some _ _ _ Hthis). reflexivity.
  - intros recompute. unfold eval, load. simpl. rewrite lookup_insert_eq. simpl.
    rewrite andb_false_r. simpl. by rewrite store_store.
  - unfold get_output_tensor, load. simpl. by rewrite lookup_insert_eq.
Qed.

Lemma eval_after_reset_witness :
  ops test_heap !! 3%N = Some (inner [1%N; 2%N] 50%N)
  /\ eval failing_eval 3%N false test_heap = Ok (50%N, test_heap)
  /\ exists h1, reset 3%N test_heap = Ok h1 /\ eval failing_eval 3%N false h1 = Undefined.
Proof.
  split; [reflexivity|]. split; [reflexivity|].
  destruct (eval_after_reset failing_eval 3%N test_heap (inner [1%N; 2%N] 50%N))
    as (h1 & h2 & E & _ & H & _); [reflexivity|].
  exists h1. split; [exact E|]. by rewrite H.
Defined.

(** X14. A gradient query with [recompute = false] for a variable that has
    a cache slot does not change the store.  If the slot holds a tensor,
    [grad] returns it whatever the local rule is; if the slot is null, the
    local rule runs on the store exactly as it was. *)
Theorem grad_registered_key
  (_grad : N -> N -> N -> N -> Heap -> result (N * Heap))
  (this consumer var g t : N) (h : Heap) (o : Operation) :
  ops h !! this = Some o ->
  _grad_cache o !! var = Some t ->
  (t <> NULL -> grad _grad this consumer var g false h = Ok (t, h))
  /\ (t = NULL -> grad _grad this consumer var g false h = _grad this consumer var g h).
Proof.
  intros Hthis Hslot.
  assert (E : grad _grad this consumer var g false h
              = if negb (t =? NULL)%N then Ok (t, h) else _grad this consumer var g h).
  { unfold grad. simpl. rewrite (load_Some _ _ _ Hthis). simpl.
    unfold map_subscript. rewrite Hslot. rewrite with_grad_cache_id.
    by rewrite (store_same _ _ _ Hthis). }
  split.
  - intros Ht. apply N.eqb_neq in Ht. by rewrite E, Ht.
  - intros ->. by rewrite E.
Qed.

Lemma grad_registered_key_witness :
  _grad_cache (with_grad_cache {[1%N := 70%N]} (inner [1%N] 50%N)) !! 1%N = Some 70%N
  /\ grad pass_through_grad 3%N 4%N 1%N 60%N false
       (store 3%N (with_grad_cache {[1%N := 70%N]} (inner [1%N] 50%N)) test_heap)
     = Ok (70%N, store 3%N (with_grad_cache {[1%N := 70%N]} (inner [1%N] 50%N)) test_heap).
Proof.
  split; [reflexivity|].
  apply (grad_registered_key pass_through_grad 3%N 4%N 1%N 60%N 70%N
           (store 3%N (with_grad_cache {[1%N := 70%N]} (inner [1%N] 50%N)) test_heap)
           (with_grad_cache {[1%N := 70%N]} (inner [1%N] 50%N)));
    [reflexivity | reflexivity | discriminate].
Defined.

(** X15. The base class never stores a gradient.  When the slot for [var]
    is missing or null and the local rule returns a tensor without writing
    the cache itself, [grad] with [recompute = false] returns that tensor,
    the slot is null afterwards, and the same query again runs the local
    rule again. *)
Theorem grad_does_not_cache
  (_grad : N -> N -> N -> N -> Heap -> result (N * Heap))
  (this consumer var g t : N) (h : Heap) (o : Operation) :
  ops h !! this = Some o ->
  default NULL (_grad_cache o !! var) = NULL ->
  let h1 := store this (with_grad_cache (<[var := NULL]> (_grad_cache o)) o) h in
  _grad this consumer var g h1 = Ok (t, h1) ->
  grad _grad this consumer var g false h = Ok (t, h1)
  /\ get_grad_tensor this var h1 = Ok NULL
  /\ grad _grad this consumer var g false h1 = _grad this consumer var g h1.
Proof.
  intros Hthis Hslot h1 Hrule.
  assert (E1 : grad _grad this consumer var g false h = _grad this consumer var g h1).
  { unfold grad. simpl. rewrite (load_Some _ _ _ Hthis). simpl. unfold map_subscript.
    destruct (_grad_cache o !! var) as [v|] eqn:Hv; simpl in Hslot; [|done].
    subst v. simpl. subst h1. by rewrite (insert_id _ _ _ Hv). }
  assert (L1 : ops h1 !! this = Some (with_grad_cache (<[var := NULL]> (_grad_cache o)) o))
    by (subst h1; simpl; apply lookup_insert_eq).
  split; [by rewrite E1|]. split.
  - unfold get_grad_tensor. rewrite (load_Some _ _ _ L1). simpl. by rewrite lookup_insert_eq.
  - unfold grad. simpl. rewrite (load_Some _ _ _ L1). simpl. unfold map_subscript.
    simpl. rewrite lookup_insert_eq. simpl.
    replace (with_grad_cache (<[var:=NULL]> (_grad_cache o))
               (with_grad_cache (<[var:=NULL]> (_grad_cache o)) o))
      with (with_grad_cache (<[var:=NULL]> (_grad_cache o)) o) by reflexivity.
    by rewrite (store_same _ _ _ L1).
Qed.

Lemma grad_does_not_cache_witness :
  default NULL (_grad_cache (inner [1%N; 2%N] 50%N) !! 1%N) = NULL
  /\ grad pass_through_grad 3%N 4%N 1%N 60%N false test_heap
     = Ok (60%N, store 3%N (with_grad_cache (<[1%N := NULL]> ∅) (inner [1%N; 2%N] 50%N))
                   test_heap).
Proof.
  split; [reflexivity|].
  apply (grad_does_not_cache pass_through_grad 3%N 4%N 1%N 60%N 60%N test_heap
           (inner [1%N; 2%N] 50%N)); reflexivity.
Defined.

Lemma grad_computed_store_other h p q o :
  p <> q -> grad_computed (store q o h) p = grad_computed h p.
Proof. intros Hne. unfold grad_computed. simpl. by rewrite lookup_insert_ne. Qed.

Lemma grad_computed_store_same h p o o' :
  ops h !! p = Some o -> has_grad_been_computed o' = has_grad_been_computed o ->
  grad_computed (store p o' h) p = grad_computed h p.
Proof. intros Hp E. unfold grad_computed. simpl. by rewrite lookup_insert_eq, Hp. Qed.

Lemma grad_computed_store h p q o o' :
  ops h !! q = Some o -> has_grad_been_computed o' = has_grad_been_computed o ->
  grad_computed (store q o' h) p = grad_computed h p.
Proof.
  intros Hq E. destruct (decide (p = q)) as [->|Hne].
  - by apply (grad_computed_store_same _ _ o).
  - by apply grad_computed_store_other.
Qed.

Lemma grad_computed_frame h h' p : ctx_frame h h' -> grad_computed h' p = grad_computed h p.
Proof.
  intros R. unfold grad_computed. destruct (ops h !! p) as [o|] eqn:Hp.
  - destruct (ctx_frame_op _ _ _ _ R Hp) as (o' & -> & S).
    unfold same_but_context in S. tauto.
  - by rewrite (ctx_frame_fresh _ _ _ R Hp).
Qed.

Lemma run_method_keeps_grad_flag _eval _grad m h h' p :
  (forall t r h0 x h1,
     _eval t r h0 = Ok (x, h1) -> grad_computed h0 p = false -> grad_computed h1 p = false) ->
  (forall t c v g h0 x h1,
     _grad t c v g h0 = Ok (x, h1) -> grad_computed h0 p = false -> grad_computed h1 p = false) ->
  run_method _eval _grad m h = Ok h' ->
  grad_computed h p = false -> grad_computed h' p = false.
Proof.
  intros He Hg H Hp. destruct m as [c|q recompute]; simpl in H.
  - destruct c; simpl in H.
    + unfold reset in H. inv_bind H. apply Ok_inj in Hb. subst h'. apply load_Ok in Ha.
      destruct (decide (p = p0)) as [->|Hne].
      * unfold grad_computed. simpl. by rewrite lookup_insert_eq.
      * by rewrite grad_computed_store_other.
    + unfold add_consumer in H. inv_bind H. apply Ok_inj in Hb. subst h'. apply load_Ok in Ha.
      by rewrite (grad_computed_store _ _ _ x).
    + apply set_custream_frame in H. by rewrite (grad_computed_frame _ _ _ H).
    + apply set_cudnn_handle_frame in H. by rewrite (grad_computed_frame _ _ _ H).
    + apply set_cublas_handle_frame in H. by rewrite (grad_computed_frame _ _ _ H).
    + apply set_async_frame in H. by rewrite (grad_computed_frame _ _ _ H).
    + apply cuda_exec_context_frame in H. by rewrite (grad_computed_frame _ _ _ H).
    + inv_bind H. apply Ok_inj in Hb. subst h'. destruct x as [r h1]. simpl.
      unfold grad in Ha. destruct recompute; simpl in Ha; [by eapply Hg; eauto|].
      inv_bind Ha. apply load_Ok in Haa. rename x into o.
      destruct (map_subscript (_grad_cache o) var) as [ret cache].
      assert (Hs : grad_computed (store p0 (with_grad_cache cache o) h) p = false)
        by (by rewrite (grad_computed_store _ _ _ o)).
      destruct (negb (ret =? NULL)%N).
      * apply Ok_inj in Hab. by inversion Hab; subst.
      * eapply Hg; eauto.
  - inv_bind H. apply Ok_inj in Hb. subst h'. destruct x as [r h1]. simpl.
    unfold eval in Ha. inv_bind Ha. apply load_Ok in Haa. rename x into o.
    destruct (negb recompute && has_been_computed o && negb (output_tensor o =? NULL)%N).
    + apply Ok_inj in Hab. by inversion Hab; subst.
    + eapply He; [exact Hab|]. by rewrite (grad_computed_store _ _ _ o).
Qed.

(** X16. The base class never raises the "gradient has been computed"
    flag: [reset] clears it and nothing else in the header writes it.  If a
    node's flag is clear, it is clear after any sequence of calls of the
    public interface ([eval], [grad], [reset], [add_consumer], the context
    setters), provided the two abstract rules do not raise it. *)
Theorem grad_flag_never_raised
  (_eval : N -> bool -> Heap -> result (N * Heap))
  (_grad : N -> N -> N -> N -> Heap -> result (N * Heap))
  (ms : list method_call) (p : N) (h h' : Heap) :
  (forall t r h0 x h1,
     _eval t r h0 = Ok (x, h1) -> grad_computed h0 p = false -> grad_computed h1 p = false) ->
  (forall t c v g h0 x h1,
     _grad t c v g h0 = Ok (x, h1) -> grad_computed h0 p = false -> grad_computed h1 p = false) ->
  run_methods _eval _grad ms h = Ok h' ->
  grad_computed h p = false -> grad_computed h' p = false.
Proof.
  intros He Hg. revert h. induction ms as [|m ms IH]; intros h H Hp; simpl in H.
  - apply Ok_inj in H. by subst.
  - inv_bind H. eapply IH; [exact Hb|]. eapply run_method_keeps_grad_flag; eauto.
Qed.

Lemma grad_flag_never_raised_witness :
  grad_computed test_heap 3%N = false
  /\ exists h',
       run_methods const_eval pass_through_grad
         [call_eval 3%N true; base_call (call_grad 3%N 4%N 1%N 60%N false);
          base_call (call_add_consumer 3%N 4%N)] test_heap = Ok h'
       /\ grad_computed h' 3%N = false.
Proof.
  split; [reflexivity|]. eexists. split; [vm_compute; reflexivity|].
  apply (grad_flag_never_raised const_eval pass_through_grad
           [call_eval 3%N true; base_call (call_grad 3%N 4%N 1%N 60%N false);
            base_call (call_add_consumer 3%N 4%N)] 3%N test_heap).
  - intros t r h0 x h1 H. apply Ok_inj in H. by inversion H.
  - intros t c v g h0 x h1 H. apply Ok_inj in H. by inversion H.
  - vm_compute. reflexivity.
  - reflexivity.
Defined.

(** X17. The destructor body on its own, as it runs for a node that is not
    released through [delete]: over a tree it returns, the node itself
    stays in the store with its input list unchanged, now dangling, every
    other node of the tree is released, and nothing else is touched.
    [delete] is that body followed by the release of the node. *)
Theorem Operation_dtor_releases_inputs (n : nat) (this : N) (h : Heap) (D : gset N) :
  this <> NULL ->
  subtree (S n) h this = Some D ->
  exists h', Operation_dtor n this h = Ok h'
    /\ ops h' !! this = ops h !! this
    /\ (forall q, q ∈ D -> q <> this -> ops h' !! q = None)
    /\ (forall q, q ∉ D -> ops h' !! q = ops h !! q)
    /\ tensors h' = tensors h
    /\ delete_Operation (S n) this h = Ok (free_op this h').
Proof.
  intros Hn H.
  destruct (subtree_node _ _ _ _ Hn H) as (n' & o & D' & [= <-] & Ho & Hc & Hnot & ->).
  destruct (delete_inputs_spec n (delete_spec n) _ _ _ Hc) as (h' & E & T & C).
  assert (Hthis : ops h' !! this = ops h !! this) by (rewrite C; by rewrite decide_False).
  exists h'. split; [|split; [exact Hthis|split; [|split; [|split; [exact T|]]]]].
  - unfold Operation_dtor. by rewrite (load_Some _ _ _ Ho).
  - intros q Hq Hne. rewrite C. rewrite decide_True; [done|].
    apply elem_of_union in Hq as [Hq|Hq]; [|done]. by apply elem_of_singleton in Hq.
  - intros q Hq. rewrite C. rewrite decide_False; [done|].
    intros Hin. apply Hq. by apply elem_of_union_r.
  - simpl. apply N.eqb_neq in Hn. rewrite Hn. rewrite (load_Some _ _ _ Ho). simpl.
    rewrite E. simpl. unfold load. rewrite Hthis, Ho. reflexivity.
Qed.

Lemma Operation_dtor_releases_inputs_witness :
  subtree 2 test_heap 3%N = Some ({[3%N]} ∪ ({[1%N]} ∪ ({[2%N]} ∪ ∅)))
  /\ exists h', Operation_dtor 1 3%N test_heap = Ok h'
       /\ get_inputs 3%N h' = Ok [1%N; 2%N] /\ ops h' !! 1%N = None.
Proof.
  split; [vm_compute; reflexivity|].
  destruct (Operation_dtor_releases_inputs 1 3%N test_heap
              ({[3%N]} ∪ ({[1%N]} ∪ ({[2%N]} ∪ ∅))))
    as (h' & E & Hthis & Hgone & _); [discriminate | vm_compute; reflexivity |].
  exists h'. split; [exact E|]. split.
  - unfold get_inputs, load. rewrite Hthis. reflexivity.
  - apply Hgone; [|discriminate].
    apply elem_of_union_r, elem_of_union_l. by apply elem_of_singleton.
Defined.
